(** * CD-ROM image drive of DOSBox: track table, sector index and playback

    A shallow embedding of [src/dos/cdrom_image.cpp]: the track table built
    from a cue sheet ([LoadCueSheet], [AddTrack]) or from a sniffed ISO file
    ([LoadIsoFile], [CanReadPVD]), the sector index ([GetTrack]), the
    inquiry calls ([GetAudioTracks], [GetAudioTrackInfo]) and the control
    side of the playback engine ([PlayAudioSector], [PauseAudio],
    [StopAudio]).

    Conventions of the embedding.
    - Machine integers are [Z] with the wrap-around written out: [u8],
      [u16], [u32], [u64] reduce modulo the width, [i32] is the conversion
      to a 32-bit [int].  An overflow of signed [int] arithmetic is given
      its two's-complement result.
    - [cdrom.h] and [support.h] are not part of the sources at hand.  The
      widths of the fields of [Track] and [imagePlayer] are read off their
      uses in the .cpp file (the casts, the format strings and the comment
      that the frame counters must stay 64-bit); the constants whose values
      the comments of the .cpp file or the specification fix are defined
      below, and the remaining declarations are the fields of [Header],
      taken as a parameter.
    - A function that returns [bool] and updates the object returns the
      pair of the flag and the new state.  A failed [assert], a null
      dereference and a division by zero have no result: [None]. *)

From Stdlib Require Import ZArith List Lia Bool Strings.Byte Ascii String.
Import ListNotations.
Local Open Scope Z_scope.

(** ** Machine integers *)

Definition u8 (z : Z) : Z := z mod 2 ^ 8.
Definition u16 (z : Z) : Z := z mod 2 ^ 16.
Definition u32 (z : Z) : Z := z mod 2 ^ 32.
Definition u64 (z : Z) : Z := z mod 2 ^ 64.

(** Conversion to [int]: the value modulo [2^32] in [-2^31, 2^31). *)
Definition i32 (z : Z) : Z := (z + 2 ^ 31) mod 2 ^ 32 - 2 ^ 31.

(** ** Constants *)

(** Modelled from the spec: [cdrom.h] is missing; cooked sectors have 2048
    bytes and raw sectors 2352 (section 3 of the specification). *)
Definition BYTES_PER_COOKED_REDBOOK_FRAME : Z := 2048.
Definition BYTES_PER_RAW_REDBOOK_FRAME : Z := 2352.

(** Modelled from the spec: [cdrom.h] is missing; 75 frames per second. *)
Definition REDBOOK_FRAMES_PER_SECOND : Z := 75.

(** Modelled from the spec: [cdrom.h] is missing; a table with fewer than
    two entries is no media (also the comment in [GetAudioTracks]). *)
Definition MIN_REDBOOK_TRACKS : Z := 2.

(** Time in minutes, seconds and frames. *)
Record TMSF := mkTMSF { min : Z; sec : Z; fr : Z }.

(** The declarations of the missing headers (and of SDL) that the code
    uses and whose values neither the code nor the specification fixes. *)
Record Header := mkHeader {
  MAX_REDBOOK_SECTOR : Z;
  AUDIO_S16SYS : Z;
  AUDIO_S16LSB : Z;
  BinaryFile_getRate : Z;
  BinaryFile_getChannels : Z;
  frames_to_msf : Z -> TMSF
}.

(** Modelled from the spec: [clamp] of [support.h] is missing; the value
    bounded below by [lower] and above by [upper]. *)
Definition clamp (n lower upper : Z) : Z := Z.max lower (Z.min n upper).

(** ** Track sources *)

(** The [ifstream] of a [BinaryFile]: the bytes of the file and the sticky
    failure flag of the stream.  Every access is by absolute position
    (comment in [BinaryFile::getLength]), so no position is kept. *)
Record ifstream := mkStream { content : list byte; failbit : bool }.

(** The sample of an [AudioFile]; its decoder is an external library.
    Beside the three fields of [actual] that the file reads, the sample
    carries what two methods compute from it through floating point: the
    [int] that [AudioFile::getLength] returns, and whether
    [AudioFile::seek] succeeds at a byte offset. *)
Record Sound_Sample := mkSample {
  actual_format : Z;
  actual_rate : Z;
  actual_channels : Z;
  AudioFile_getLength : Z;
  AudioFile_seek : Z -> bool
}.

Inductive TrackFile :=
| BinaryFile (file : ifstream)
| AudioFile (sample : option Sound_Sample).

(** [file->seekg(seek); file->read(buffer, count)]: nothing happens on a
    failed stream; a negative position fails; a read that meets the end of
    the file delivers the bytes that are there and fails the stream.  The
    result is the stream afterwards and the bytes written to the buffer. *)
Definition ifstream_read (s : ifstream) (seek count : Z) : ifstream * list byte :=
  if failbit s then (s, [])
  else if seek <? 0 then (mkStream (content s) true, [])
  else
    let got := firstn (Z.to_nat count) (skipn (Z.to_nat seek) (content s)) in
    (mkStream (content s) (Z.of_nat (List.length got) <? count), got).

(** [BinaryFile::read]: the stream afterwards, [!file->fail()], the bytes. *)
Definition BinaryFile_read (s : ifstream) (seek count : Z)
  : ifstream * bool * list byte :=
  let '(s', got) := ifstream_read s seek count in
  (s', negb (failbit s'), got).

(** [BinaryFile::getLength]: [tellg] after a seek to the end, as [int];
    [tellg] is -1 on a failed stream. *)
Definition BinaryFile_getLength (s : ifstream) : Z :=
  if failbit s then -1 else i32 (Z.of_nat (List.length (content s))).

(** The virtual methods of [TrackFile]. *)
Definition getLength (f : TrackFile) : Z :=
  match f with
  | BinaryFile s => BinaryFile_getLength s
  | AudioFile (Some smp) => AudioFile_getLength smp
  | AudioFile None => -1
  end.

Definition getRate (h : Header) (f : TrackFile) : Z :=
  match f with
  | BinaryFile _ => BinaryFile_getRate h
  | AudioFile (Some smp) => actual_rate smp
  | AudioFile None => 0
  end.

Definition getChannels (h : Header) (f : TrackFile) : Z :=
  match f with
  | BinaryFile _ => BinaryFile_getChannels h
  | AudioFile (Some smp) => actual_channels smp
  | AudioFile None => 0
  end.

Definition getEndian (h : Header) (f : TrackFile) : Z :=
  match f with
  | BinaryFile _ => AUDIO_S16LSB h
  | AudioFile (Some smp) => actual_format smp
  | AudioFile None => AUDIO_S16SYS h
  end.

(** [seek(Bit32u offset)]; a [BinaryFile] seeks its stream, which fails only
    when the stream has failed before. *)
Definition seek (f : TrackFile) (offset : Z) : bool :=
  match f with
  | BinaryFile s => negb (failbit s)
  | AudioFile (Some smp) => AudioFile_seek smp offset
  | AudioFile None => false
  end.

(** [read(buffer, seek, count)]: the flag and the bytes written.  The
    [read] of an [AudioFile] is declared in the missing header; it is taken
    to fail. *)
Definition read (f : TrackFile) (seek count : Z) : bool * list byte :=
  match f with
  | BinaryFile s => let '(_, ok, got) := BinaryFile_read s seek count in (ok, got)
  | AudioFile _ => (false, [])
  end.

(** A [shared_ptr<TrackFile>] that is not null: the address of the object,
    by which two pointers are compared, and the object. *)
Record shared_ptr := mkPtr { addr : nat; target : TrackFile }.

(** [prev.file == curr.file] *)
Definition same_file (a b : option shared_ptr) : bool :=
  match a, b with
  | None, None => true
  | Some p, Some q => Nat.eqb (addr p) (addr q)
  | _, _ => false
  end.

(** ** Tracks *)

Module Track.
Record t := mk {
  file : option shared_ptr;
  start : Z;        (* uint32_t *)
  length : Z;       (* uint32_t *)
  skip : Z;         (* uint32_t *)
  sectorSize : Z;   (* uint16_t *)
  number : Z;       (* uint8_t *)
  attr : Z;         (* uint8_t *)
  mode2 : bool
}.

(** A default-constructed [Track]. *)
Definition empty : t := mk None 0 0 0 0 0 0 false.

Definition set_file (x : t) (v : option shared_ptr) : t :=
  mk v (start x) (length x) (skip x) (sectorSize x) (number x) (attr x) (mode2 x).
Definition set_start (x : t) (v : Z) : t :=
  mk (file x) v (length x) (skip x) (sectorSize x) (number x) (attr x) (mode2 x).
Definition set_length (x : t) (v : Z) : t :=
  mk (file x) (start x) v (skip x) (sectorSize x) (number x) (attr x) (mode2 x).
Definition set_skip (x : t) (v : Z) : t :=
  mk (file x) (start x) (length x) v (sectorSize x) (number x) (attr x) (mode2 x).
Definition set_number (x : t) (v : Z) : t :=
  mk (file x) (start x) (length x) (skip x) (sectorSize x) v (attr x) (mode2 x).
Definition set_attr (x : t) (v : Z) : t :=
  mk (file x) (start x) (length x) (skip x) (sectorSize x) (number x) v (mode2 x).
(** The three fields that a [TRACK] type keyword selects. *)
Definition set_type (x : t) (size a : Z) (m : bool) : t :=
  mk (file x) (start x) (length x) (skip x) size (number x) a m.
End Track.

(** [tracks.back()] and [tracks.front()] of a table that is not empty. *)
Definition back (tracks : list Track.t) : Track.t := last tracks Track.empty.
Definition front (tracks : list Track.t) : Track.t := hd Track.empty tracks.

(** [tracks.size()] *)
Definition size (tracks : list Track.t) : Z := Z.of_nat (List.length tracks).

(** ** The sector index *)

(** The loop of [GetTrack]: [idx] is the position of the iterator. *)
Fixpoint GetTrack_walk (ts : list Track.t) (idx : nat) (lower_bound sector : Z)
  : option nat :=
  match ts with
  | [] => None
  | track :: rest =>
      let upper_bound := u32 (Track.start track + Track.length track) in
      if (lower_bound <=? sector) && (sector <? upper_bound) then Some idx
      else GetTrack_walk rest (S idx) upper_bound sector
  end.

(** [GetTrack(const uint32_t sector)]: the position of the owning track,
    [None] for [tracks.end()].  The parameter has 32 bits: the function
    works on what its argument is as a [uint32_t]. *)
Definition GetTrack (h : Header) (tracks : list Track.t) (sector : Z) : option nat :=
  let sector := u32 sector in
  if (sector >? MAX_REDBOOK_SECTOR h)
     || (size tracks <? MIN_REDBOOK_TRACKS)
     || (sector >=? Track.start (back tracks))
  then None
  else GetTrack_walk tracks 0 (Track.start (front tracks)) sector.

(** The track an iterator points at. *)
Definition deref (tracks : list Track.t) (it : option nat) : option Track.t :=
  match it with
  | Some i => nth_error tracks i
  | None => None
  end.

(** ** The drive and the player *)

(** The object: its table of tracks, the catalog and the unit. *)
Record Image := mkImage {
  tracks : list Track.t;
  mcn : string;
  subUnit : Z
}.

(** The mixer channel, as far as the drive drives it. *)
Record MixerChannel := mkChannel { enabled : bool; freq : Z }.

Definition Enable (on : bool) (c : MixerChannel) : MixerChannel :=
  mkChannel on (freq c).
Definition SetFreq (f : Z) (c : MixerChannel) : MixerChannel :=
  mkChannel (enabled c) f.

(** The four functions [player.addFrames] can point to. *)
Inductive AddSamples :=
| AddSamples_s16 | AddSamples_m16
| AddSamples_s16_nonnative | AddSamples_m16_nonnative.

(** The static [player]; the mutex is in [Mutex] below and the sample
    buffer is left out.  [cd] holds the unit of the image it points to. *)
Record imagePlayer := mkPlayer {
  trackFile : option shared_ptr;
  channel : option MixerChannel;
  cd : option Z;
  addFrames : option AddSamples;
  startSector : Z;          (* uint64_t *)
  totalRedbookFrames : Z;   (* uint64_t *)
  playedTrackFrames : Z;    (* uint64_t *)
  totalTrackFrames : Z;     (* uint64_t *)
  isPlaying : bool;
  isPaused : bool
}.

(** What [SDL_LockMutex] and [SDL_UnlockMutex] answer during one call:
    [true] for a result that is not negative. *)
Record Mutex := mkMutex { locks : bool; unlocks : bool }.

(** Whether the mixer channel is producing output. *)
Definition output_enabled (p : imagePlayer) : bool :=
  match channel p with
  | Some c => enabled c
  | None => false
  end.

(** The fields of a playback session, the two flags apart. *)
Definition session (p : imagePlayer)
  : option shared_ptr * option Z * option AddSamples * (Z * Z * Z * Z) :=
  (trackFile p, cd p, addFrames p,
   (startSector p, totalRedbookFrames p, playedTrackFrames p, totalTrackFrames p)).

Definition StopAudio (p : imagePlayer) : bool * imagePlayer :=
  (true,
   mkPlayer (trackFile p) (option_map (Enable false) (channel p)) (cd p)
            (addFrames p) (startSector p) (totalRedbookFrames p)
            (playedTrackFrames p) (totalTrackFrames p) false false).

Definition PauseAudio (p : imagePlayer) (resume : bool) : bool * imagePlayer :=
  (true,
   mkPlayer (trackFile p) (option_map (Enable resume) (channel p)) (cd p)
            (addFrames p) (startSector p) (totalRedbookFrames p)
            (playedTrackFrames p) (totalTrackFrames p) (isPlaying p)
            (negb resume)).

(** The guard at the head of [PlayAudioSector]: the track, its file and
    the channel when the request passes, [None] when one of the five
    conditions holds. *)
Definition sanity_check (h : Header) (this : Image) (p : imagePlayer)
    (start len : Z) : option (Track.t * shared_ptr * MixerChannel) :=
  if len =? 0 then None
  else
    match deref (tracks this) (GetTrack h (tracks this) (u32 start)) with
    | None => None
    | Some track =>
        if Track.attr track =? 0x40 then None
        else
          match Track.file track, channel p with
          | Some f, Some c => Some (track, f, c)
          | _, _ => None
          end
    end.

(** [const int relative_start = start - track->start] *)
Definition relative_start (start : Z) (track : Track.t) : Z :=
  i32 (u64 (start - Track.start track)).

(** The length after [if (relative_start < 0) len -= relative_start]. *)
Definition play_length (start len : Z) (track : Track.t) : Z :=
  if relative_start start track <? 0
  then u64 (len - relative_start start track)
  else len.

(** [const int offset = track->skip + clamp(...) * track->sectorSize] *)
Definition seek_offset (start : Z) (track : Track.t) : Z :=
  i32 (u32 (Track.skip track
            + clamp (relative_start start track) 0
                    (i32 (u32 (Track.length track - 1)))
              * Track.sectorSize track)).

Definition select_addFrames (h : Header) (f : TrackFile) (track_channels : Z)
  : AddSamples :=
  if getEndian h f =? AUDIO_S16SYS h
  then (if track_channels =? 2 then AddSamples_s16 else AddSamples_m16)
  else (if track_channels =? 2 then AddSamples_s16_nonnative
        else AddSamples_m16_nonnative).

(** [PlayAudioSector(uint64_t start, uint64_t len)] *)
Definition PlayAudioSector (h : Header) (m : Mutex) (this : Image)
    (p : imagePlayer) (start len : Z) : bool * imagePlayer :=
  match sanity_check h this p start len with
  | None => (false, snd (StopAudio p))
  | Some (track, f, c) =>
      let len := play_length start len track in
      let offset := seek_offset start track in
      if negb (seek (target f) (u32 offset)) then (false, snd (StopAudio p))
      else
        let track_channels := getChannels h (target f) in
        let track_rate := getRate h (target f) in
        if negb (locks m) then (false, snd (StopAudio p))
        else
          let p' :=
            mkPlayer (Some f)
                     (Some (Enable true (SetFreq track_rate c)))
                     (Some (subUnit this))
                     (Some (select_addFrames h (target f) track_channels))
                     start len 0
                     (u64 (track_rate * len + REDBOOK_FRAMES_PER_SECOND - 1)
                      / REDBOOK_FRAMES_PER_SECOND)
                     true false in
          if negb (unlocks m) then (false, snd (StopAudio p'))
          else (true, p')
  end.

(** [ReadSector(buffer, raw, unsigned long sector)], with [unsigned long]
    of 64 bits: the flag and the bytes written to the buffer. *)
Definition ReadSector (h : Header) (this : Image) (raw : bool) (sector : Z)
  : bool * list byte :=
  match deref (tracks this) (GetTrack h (tracks this) (u32 sector)) with
  | None => (false, [])
  | Some track =>
      match Track.file track with
      | None => (false, [])
      | Some f =>
          let seek := i32 (u64 (Track.skip track
                                + (sector - Track.start track)
                                  * Track.sectorSize track)) in
          let length := if raw then BYTES_PER_RAW_REDBOOK_FRAME
                        else BYTES_PER_COOKED_REDBOOK_FRAME in
          if negb (Track.sectorSize track =? BYTES_PER_RAW_REDBOOK_FRAME) && raw
          then (false, [])
          else
            let seek :=
              if (Track.sectorSize track =? BYTES_PER_RAW_REDBOOK_FRAME)
                 && negb (Track.mode2 track) && negb raw
              then i32 (seek + 16) else seek in
            let seek :=
              if Track.mode2 track && negb raw then i32 (seek + 24) else seek in
            read (target f) seek length
      end
  end.

(** ** Inquiry *)

(** [GetAudioTracks]: the first and the last playable track number and
    the time of the lead-out; [None] for [false]. *)
Definition GetAudioTracks (h : Header) (this : Image) : option (Z * Z * TMSF) :=
  if size (tracks this) <? MIN_REDBOOK_TRACKS then None
  else
    Some (Track.number (front (tracks this)),
          Track.number (nth (List.length (tracks this) - 2) (tracks this) Track.empty),
          frames_to_msf h (u32 (Track.start (back (tracks this)) + 150))).

(** [GetAudioTrackInfo(uint8_t requested_track_num, ...)]: the start time
    and the attribute of the track; [None] for [false]. *)
Definition GetAudioTrackInfo (h : Header) (this : Image)
    (requested_track_num : Z) : option (TMSF * Z) :=
  if (size (tracks this) <? MIN_REDBOOK_TRACKS)
     || (requested_track_num <? 1)
     || (requested_track_num >? 99)
     || (requested_track_num >=? size (tracks this))
  then None
  else
    let requested_track_index := Z.to_nat (requested_track_num - 1) in
    let track := nth requested_track_index (tracks this) Track.empty in
    Some (frames_to_msf h (u32 (Track.start track + 150)), Track.attr track).

(** ** Sniffing an ISO file *)

Definition byte_is (b : byte) (v : byte) : bool := Byte.eqb b v.

(** [!strncmp(p, "CD001", 5)] and [!strncmp(p, "CDROM", 5)]: neither
    literal has a zero among its five characters, so the five bytes at [p]
    are compared. *)
Definition is_CD001 (b1 b2 b3 b4 b5 : byte) : bool :=
  byte_is b1 "C" && byte_is b2 "D" && byte_is b3 "0" && byte_is b4 "0"
  && byte_is b5 "1".
Definition is_CDROM (b1 b2 b3 b4 b5 : byte) : bool :=
  byte_is b1 "C" && byte_is b2 "D" && byte_is b3 "R" && byte_is b4 "O"
  && byte_is b5 "M".

(** [CanReadPVD(file, sectorSize, mode2)] for a file pointer that is not
    null: the stream afterwards and the answer.  The buffer [pvd] starts as
    zeros and the result of [read] is not looked at. *)
Definition CanReadPVD (s : ifstream) (sectorSize : Z) (mode2 : bool)
  : ifstream * bool :=
  let seek := 16 * sectorSize in
  let seek := if (sectorSize =? BYTES_PER_RAW_REDBOOK_FRAME) && negb mode2
              then seek + 16 else seek in
  let seek := if mode2 then seek + 24 else seek in
  let '(s', got) := ifstream_read s seek BYTES_PER_COOKED_REDBOOK_FRAME in
  let pvd (i : nat) := nth i got x00 in
  (s',
   (byte_is (pvd 0%nat) x01
    && is_CD001 (pvd 1%nat) (pvd 2%nat) (pvd 3%nat) (pvd 4%nat) (pvd 5%nat)
    && byte_is (pvd 6%nat) x01)
   || (byte_is (pvd 8%nat) x01
       && is_CDROM (pvd 9%nat) (pvd 10%nat) (pvd 11%nat) (pvd 12%nat) (pvd 13%nat)
       && byte_is (pvd 14%nat) x01)).

(** The end of [LoadIsoFile], once the geometry is known. *)
Definition iso_table (a : nat) (s : ifstream) (sectorSize : Z) (mode2 : bool)
  : list Track.t :=
  let length := u32 (Z.quot (BinaryFile_getLength s) sectorSize) in
  [ Track.mk (Some (mkPtr a (BinaryFile s))) 0 length 0 sectorSize 1 0x40 mode2;
    Track.mk None length 0 0 0 2 0 false ].

(** [LoadIsoFile(filename)]: [s] is the stream as the constructor of
    [BinaryFile] opened it and [a] the address of the new object; the
    result is the flag and the table. *)
Definition LoadIsoFile (a : nat) (s : ifstream) : bool * list Track.t :=
  if failbit s then (false, [])
  else
    let '(s1, ok1) := CanReadPVD s BYTES_PER_COOKED_REDBOOK_FRAME false in
    if ok1 then (true, iso_table a s1 BYTES_PER_COOKED_REDBOOK_FRAME false)
    else
      let '(s2, ok2) := CanReadPVD s1 BYTES_PER_RAW_REDBOOK_FRAME false in
      if ok2 then (true, iso_table a s2 BYTES_PER_RAW_REDBOOK_FRAME false)
      else
        let '(s3, ok3) := CanReadPVD s2 2336 true in
        if ok3 then (true, iso_table a s3 2336 true)
        else
          let '(s4, ok4) := CanReadPVD s3 BYTES_PER_RAW_REDBOOK_FRAME true in
          if ok4 then (true, iso_table a s4 BYTES_PER_RAW_REDBOOK_FRAME true)
          else (false, []).

(** ** Building the table from a cue sheet *)

(** What [AddTrack] reads and writes through [this] and its reference
    parameters. *)
Record Builder := mkBuilder {
  b_tracks : list Track.t;
  b_curr : Track.t;
  b_shift : Z;         (* int *)
  b_totalPregap : Z    (* int *)
}.

(** The error checks at the end of [AddTrack] and the [push_back];
    [others] are the tracks before [prev]. *)
Definition consistency_checks (others : list Track.t) (prev curr : Track.t)
    (shift totalPregap : Z) : bool * Builder :=
  if (Track.number curr <=? 1)
     || negb (Track.number prev + 1 =? Track.number curr)
     || (Track.start curr <? u32 (Track.start prev + Track.length prev))
  then (false, mkBuilder (others ++ [prev]) curr shift totalPregap)
  else (true, mkBuilder (others ++ [prev; curr]) curr shift totalPregap).

(** [AddTrack(curr, shift, prestart, totalPregap, currPregap)] *)
Definition AddTrack (b : Builder) (prestart currPregap : Z)
  : option (bool * Builder) :=
  let curr := b_curr b in
  if (prestart >=? 0) && (prestart >? i32 (Track.start curr)) then Some (false, b)
  else
    let skip := if prestart >=? 0 then i32 (u32 (Track.start curr - prestart))
                else 0 in
    match b_tracks b with
    | [] =>
        if Track.number curr =? 1 then
          let curr := Track.set_skip curr (u32 (skip * Track.sectorSize curr)) in
          let curr := Track.set_start curr (u32 (Track.start curr + currPregap)) in
          Some (true, mkBuilder [curr] curr (b_shift b) currPregap)
        else None
    | _ :: _ =>
        let prev := back (b_tracks b) in
        let others := removelast (b_tracks b) in
        if same_file (Track.file prev) (Track.file curr) then
          let curr := Track.set_start curr (u32 (Track.start curr + b_shift b)) in
          let prev :=
            if Track.length prev =? 0
            then Track.set_length prev
                   (u32 (Track.start curr + b_totalPregap b
                         - Track.start prev - skip))
            else prev in
          let curr :=
            Track.set_skip curr
              (u32 (Track.skip curr
                    + (Track.skip prev
                       + Track.length prev * Track.sectorSize prev
                       + skip * Track.sectorSize curr))) in
          let totalPregap := i32 (b_totalPregap b + currPregap) in
          let curr := Track.set_start curr (u32 (Track.start curr + totalPregap)) in
          Some (consistency_checks others prev curr (b_shift b) totalPregap)
        else
          match Track.file prev with
          | None => None
          | Some pf =>
              if Track.sectorSize prev =? 0 then None
              else
                let tmp := i32 (u32 (getLength (target pf) - Track.skip prev)) in
                let prev :=
                  Track.set_length prev (u32 (Z.quot tmp (Track.sectorSize prev))) in
                let prev :=
                  if negb (Z.rem tmp (Track.sectorSize prev) =? 0)
                  then Track.set_length prev (u32 (Track.length prev + 1))
                  else prev in
                let curr :=
                  Track.set_start curr
                    (u32 (Track.start curr
                          + (Track.start prev + Track.length prev + currPregap))) in
                let curr := Track.set_skip curr (u32 (skip * Track.sectorSize curr)) in
                let shift :=
                  i32 (u32 (b_shift b + (Track.start prev + Track.length prev))) in
                Some (consistency_checks others prev curr shift currPregap)
          end
    end.

(** The type keyword of a [TRACK] line. *)
Inductive TrackType :=
| AUDIO | MODE1_2048 | MODE1_2352 | MODE2_2336 | MODE2_2352 | OtherType.

(** A line of the cue sheet after the stream extractions of the loop:
    the keyword and the values read from the rest of the line.  [INDEX] and
    [PREGAP] carry the frame count and the flag of [GetCueFrame]; [FILE]
    carries the object that [make_shared] built; [Ignored] is one of the
    ignored commands or an empty line, [Unrecognized] any other keyword and
    [TooLong] a line on which [getline] fails before the end of the file. *)
Inductive CueLine :=
| TRACK (track_number : Z) (type : TrackType)
| INDEX (index frame : Z) (success : bool)
| FILE (obj : TrackFile)
| PREGAP (frame : Z) (success : bool)
| CATALOG (str : string)
| Ignored
| Unrecognized
| TooLong.

(** The flag [error] that the constructor of a track file sets. *)
Definition open_error (obj : TrackFile) : bool :=
  match obj with
  | BinaryFile s => failbit s
  | AudioFile None => true
  | AudioFile (Some _) => false
  end.

(** The locals of [LoadCueSheet] with [tracks] and [mcn] of the object;
    [fresh] is the address of the next object to allocate. *)
Record CueState := mkCue {
  c_build : Builder;
  c_currPregap : Z;
  c_prestart : Z;
  c_canAddTrack : bool;
  c_mcn : string;
  c_fresh : nat
}.

Definition cue_tracks (st : CueState) : list Track.t := b_tracks (c_build st).
Definition cue_track (st : CueState) : Track.t := b_curr (c_build st).

Definition with_track (st : CueState) (t : Track.t) : CueState :=
  mkCue (mkBuilder (cue_tracks st) t (b_shift (c_build st))
                   (b_totalPregap (c_build st)))
        (c_currPregap st) (c_prestart st) (c_canAddTrack st) (c_mcn st)
        (c_fresh st).

Definition with_build (st : CueState) (b : Builder) : CueState :=
  mkCue b (c_currPregap st) (c_prestart st) (c_canAddTrack st) (c_mcn st)
        (c_fresh st).

(** [if (canAddTrack) success = AddTrack(...); else success = true] *)
Definition add_pending (st : CueState) : option (bool * CueState) :=
  if c_canAddTrack st then
    match AddTrack (c_build st) (c_prestart st) (c_currPregap st) with
    | None => None
    | Some (success, b) => Some (success, with_build st b)
    end
  else Some (true, st).

Definition apply_type (t : Track.t) (type : TrackType) : option Track.t :=
  match type with
  | AUDIO => Some (Track.set_type t BYTES_PER_RAW_REDBOOK_FRAME 0 false)
  | MODE1_2048 => Some (Track.set_type t BYTES_PER_COOKED_REDBOOK_FRAME 0x40 false)
  | MODE1_2352 => Some (Track.set_type t BYTES_PER_RAW_REDBOOK_FRAME 0x40 false)
  | MODE2_2336 => Some (Track.set_type t 2336 0x40 true)
  | MODE2_2352 => Some (Track.set_type t BYTES_PER_RAW_REDBOOK_FRAME 0x40 true)
  | OtherType => None
  end.

(** One turn of the loop of [LoadCueSheet]: [success] and the state. *)
Definition cue_line (st : CueState) (line : CueLine) : option (bool * CueState) :=
  match line with
  | TooLong => Some (false, st)
  | TRACK track_number type =>
      match add_pending st with
      | None => None
      | Some (success, st) =>
          let t := Track.set_skip (Track.set_start (cue_track st) 0) 0 in
          let t := Track.set_number t (u8 track_number) in
          let st := mkCue (c_build (with_track st t)) 0 (-1) true (c_mcn st)
                          (c_fresh st) in
          match apply_type t type with
          | Some t => Some (success, with_track st t)
          | None => Some (false, st)
          end
      end
  | INDEX index frame success =>
      if index =? 1
      then Some (success, with_track st (Track.set_start (cue_track st) (u32 frame)))
      else if index =? 0
      then Some (success, mkCue (c_build st) (c_currPregap st) frame
                                (c_canAddTrack st) (c_mcn st) (c_fresh st))
      else Some (success, st)
  | FILE obj =>
      match add_pending st with
      | None => None
      | Some (success, st) =>
          let t := Track.set_file (cue_track st)
                     (Some (mkPtr (c_fresh st) obj)) in
          let st := mkCue (c_build (with_track st t)) (c_currPregap st)
                          (c_prestart st) false (c_mcn st) (S (c_fresh st)) in
          Some (if open_error obj then false else success, st)
      end
  | PREGAP frame success =>
      Some (success, mkCue (c_build st) frame (c_prestart st)
                           (c_canAddTrack st) (c_mcn st) (c_fresh st))
  | CATALOG str =>
      Some (true, mkCue (c_build st) (c_currPregap st) (c_prestart st)
                        (c_canAddTrack st) str (c_fresh st))
  | Ignored => Some (true, st)
  | Unrecognized => Some (false, st)
  end.

(** The loop: it returns [false] at the first line without success. *)
Fixpoint cue_lines (st : CueState) (lines : list CueLine)
  : option (bool * CueState) :=
  match lines with
  | [] => Some (true, st)
  | line :: rest =>
      match cue_line st line with
      | None => None
      | Some (false, st') => Some (false, st')
      | Some (true, st') => cue_lines st' rest
      end
  end.

(** The locals and the cleared table at the head of [LoadCueSheet]. *)
Definition cue_start (mcn : string) : CueState :=
  mkCue (mkBuilder [] Track.empty 0 0) 0 (-1) false mcn 0.

(** The lead-out descriptor that [LoadCueSheet] makes of the last track:
    [track.number++], then the attribute, the start, the length and the
    file are reset. *)
Definition lead_out (t : Track.t) : Track.t :=
  let t := Track.set_number t (u8 (Track.number t + 1)) in
  let t := Track.set_attr t 0 in
  let t := Track.set_start t 0 in
  let t := Track.set_length t 0 in
  Track.set_file t None.

(** After the loop: the last track and the lead-out are added. *)
Definition cue_finish (st : CueState) : option (bool * CueState) :=
  match AddTrack (c_build st) (c_prestart st) (c_currPregap st) with
  | None => None
  | Some (false, b) => Some (false, with_build st b)
  | Some (true, b) =>
      let st := with_build st b in
      let st := with_track st (lead_out (cue_track st)) in
      match AddTrack (c_build st) (-1) 0 with
      | None => None
      | Some (success, b) => Some (success, with_build st b)
      end
  end.

(** [LoadCueSheet(cuefile)]: [opened] tells whether the file could be
    opened, [lines] are its lines, [mcn] the catalog before the call. *)
Definition LoadCueSheet (mcn : string) (opened : bool) (lines : list CueLine)
  : option (bool * CueState) :=
  if negb opened then Some (false, cue_start mcn)
  else
    match cue_lines (cue_start mcn) lines with
    | None => None
    | Some (false, st) => Some (false, st)
    | Some (true, st) => cue_finish st
    end.

(** The file at a path as the two loaders see it. *)
Record ImageFile := mkImageFile {
  text_opens : bool;
  text_lines : list CueLine;
  binary : ifstream;
  binary_addr : nat
}.

(** [SetDevice(path)]: [LoadCueSheet(path) || LoadIsoFile(path)], the
    flag and the table of the object afterwards. *)
Definition SetDevice (mcn : string) (f : ImageFile) : option (bool * list Track.t) :=
  match LoadCueSheet mcn (text_opens f) (text_lines f) with
  | None => None
  | Some (true, st) => Some (true, cue_tracks st)
  | Some (false, _) => Some (LoadIsoFile (binary_addr f) (binary f))
  end.

(** ** The rest of the drive *)

(** The loop of [ReadSectors]: [i] counts from 0 and [todo] turns are
    left; the flag, and the bytes of the sectors read, in their order in
    the buffer. *)
Fixpoint ReadSectors_loop (h : Header) (this : Image) (raw : bool)
    (sector i : Z) (todo : nat) : bool * list (list byte) :=
  match todo with
  | O => (true, [])
  | S todo' =>
      let '(success, data) := ReadSector h this raw (u64 (sector + i)) in
      if success then
        let '(success', rest) :=
          ReadSectors_loop h this raw sector (i + 1) todo' in
        (success', data :: rest)
      else (false, [])
  end.

(** [ReadSectors(buffer, raw, unsigned long sector, unsigned long num)] *)
Definition ReadSectors (h : Header) (this : Image) (raw : bool)
    (sector num : Z) : bool * list (list byte) :=
  ReadSectors_loop h this raw sector 0 (Z.to_nat num).

(** [HasDataTrack()] *)
Definition HasDataTrack (this : Image) : bool :=
  existsb (fun track => Track.attr track =? 0x40) (tracks this).


(** [GetAudioStatus(playing, pause)] *)
Definition GetAudioStatus (p : imagePlayer) : bool * bool * bool :=
  (true, isPlaying p, isPaused p).

(** The position that [GetAudioSub] reports, in sectors: the attribute,
    the track number, the absolute and the relative sector.  There is no
    result when the rate of the source is 0, by which the code divides. *)
Definition audio_position (h : Header) (this : Image) (p : imagePlayer)
  : option (Z * Z * Z * Z) :=
  match tracks this with
  | [] => Some (0, 1, 0, 0)
  | first :: _ =>
      match (if startSector p =? 0 then None else trackFile p) with
      | Some f =>
          let sample_rate := getRate h (target f) in
          if sample_rate =? 0 then None
          else
            let played_frames :=
              u32 (u64 (playedTrackFrames p * REDBOOK_FRAMES_PER_SECOND
                        + sample_rate - 1) / sample_rate) in
            let absolute_sector := u32 (startSector p + played_frames) in
            match deref (tracks this)
                        (GetTrack h (tracks this) absolute_sector) with
            | Some track =>
                Some (Track.attr track, Track.number track, absolute_sector,
                      if absolute_sector >=? Track.start track
                      then u32 (absolute_sector - Track.start track) else 0)
            | None =>
                Some (Track.attr first, Track.number first,
                      Track.start first, 0)
            end
      | None =>
          match find (fun it => Track.attr it =? 0) (tracks this) with
          | Some it => Some (Track.attr it, Track.number it, Track.start it, 0)
          | None => Some (Track.attr first, Track.number first, 0, 0)
          end
      end
  end.

(** What [GetAudioSub] writes: [attr], [track_num], [index], the relative
    and the absolute time. *)
Record SubChannel := mkSub {
  sub_attr : Z;
  sub_track_num : Z;
  sub_index : Z;
  sub_relative : TMSF;
  sub_absolute : TMSF
}.

(** [GetAudioSub(attr, track_num, index, relative_msf, absolute_msf)],
    which returns [true] whenever it returns. *)
Definition GetAudioSub (h : Header) (this : Image) (p : imagePlayer)
  : option SubChannel :=
  match audio_position h this p with
  | None => None
  | Some (attr, track_num, absolute_sector, relative_sector) =>
      Some (mkSub attr track_num 1
                  (frames_to_msf h relative_sector)
                  (frames_to_msf h (u32 (absolute_sector + 150))))
  end.

(** What the surroundings hand to one run of [CDAudioCallBack]: the
    answers of the mutex to the callback, the answers to the
    [PlayAudioSector] it may call, the number of frames that
    [trackFile->decode] delivers, and [played_redbook_frames], which the
    code computes in floating point as the played share of the Redbook
    frames, rounded up and converted to [Bit32u]. *)
Record Feed := mkFeed {
  feed_mutex : Mutex;
  feed_play_mutex : Mutex;
  feed_decoded : Z;
  feed_played_redbook_frames : Z
}.

(** [CDAudioCallBack(desired_track_frames)]; [this] is the image that
    [player.cd] points to when it is not null.  What the mixer channel
    does with the decoded frames is outside the file.  Past the guards
    the code calls the method [player.addFrames] on [player.channel]
    without a test: there is no result when one of the two is null. *)
Definition CDAudioCallBack (h : Header) (feed : Feed) (this : Image)
    (p : imagePlayer) (desired_track_frames : Z) : option imagePlayer :=
  match trackFile p, cd p with
  | Some _, Some _ =>
      if desired_track_frames =? 0 then Some p
      else if negb (locks (feed_mutex feed)) then Some p
      else
        let p :=
          mkPlayer (trackFile p) (channel p) (cd p) (addFrames p)
                   (startSector p) (totalRedbookFrames p)
                   (u64 (playedTrackFrames p + feed_decoded feed))
                   (totalTrackFrames p) (isPlaying p) (isPaused p) in
        match channel p, addFrames p with
        | Some _, Some _ =>
            if playedTrackFrames p >=? totalTrackFrames p
            then Some (snd (StopAudio p))
            else if feed_decoded feed =? 0 then
              let played_redbook_frames := feed_played_redbook_frames feed in
              let new_redbook_start_frame :=
                u32 (startSector p + played_redbook_frames) in
              let remaining_redbook_frames :=
                u32 (totalRedbookFrames p - played_redbook_frames) in
              if negb (unlocks (feed_mutex feed)) then Some p
              else Some (snd (PlayAudioSector h (feed_play_mutex feed) this p
                                              new_redbook_start_frame
                                              remaining_redbook_frames))
            else Some p
        | _, _ => None
        end
  | _, _ => Some p
  end.

(** The static members of the class: the count of images, whether the
    mutex of the player exists, and the player. *)
Record Statics := mkStatics {
  refCount : Z;
  mutex_exists : bool;
  player : imagePlayer
}.

(** The destructor of the image of unit [unit], an image being known by
    its unit: the player forgets the image if it points to it; with the
    last image the audio is stopped and the channel and the mutex are
    released. *)
Definition destroy (s : Statics) (unit : Z) : Statics :=
  let refCount' := i32 (refCount s - 1) in
  let p := player s in
  let cd' := match cd p with
             | Some u => if u =? unit then None else Some u
             | None => None
             end in
  let p := mkPlayer (trackFile p) (channel p) cd' (addFrames p) (startSector p)
                    (totalRedbookFrames p) (playedTrackFrames p)
                    (totalTrackFrames p) (isPlaying p) (isPaused p) in
  if refCount' =? 0 then
    let p := snd (StopAudio p) in
    mkStatics refCount' false
              (mkPlayer (trackFile p) None (cd p) (addFrames p) (startSector p)
                        (totalRedbookFrames p) (playedTrackFrames p)
                        (totalTrackFrames p) (isPlaying p) (isPaused p))
  else mkStatics refCount' (mutex_exists s) p.

(** ** Notions of the specification *)

(** The quotient rounded up. *)
Definition ceil_div (n d : Z) : Z := - ((- n) / d).

(** A session whose fields are cleared, as in the initializer of
    [player]. *)
Definition session_cleared (p : imagePlayer) : Prop :=
  session p = (None, None, None, (0, 0, 0, 0)).

(** The numbers of the tracks are 1, 2, ..., N. *)
Definition numbers_1_to_N (ts : list Track.t) : Prop :=
  map Track.number ts = map Z.of_nat (seq 1 (List.length ts)).

(** A relation holds between every track and the one after it. *)
Fixpoint adjacent (P : Track.t -> Track.t -> Prop) (ts : list Track.t) : Prop :=
  match ts with
  | [] => True
  | a :: rest =>
      match rest with
      | [] => True
      | b :: _ => P a b
      end /\ adjacent P rest
  end.

(** The order that [AddTrack] checks, in the arithmetic of [uint32_t]. *)
Definition ends_before (a b : Track.t) : Prop :=
  u32 (Track.start a + Track.length a) <= Track.start b.

(** The fields [start] and [length] hold values of 32 bits. *)
Definition in_range (t : Track.t) : Prop :=
  0 <= Track.start t < 2 ^ 32 /\ 0 <= Track.length t < 2 ^ 32.

(** The end of no track passes [2^32]. *)
Definition no_wrap (ts : list Track.t) : Prop :=
  Forall (fun t => Track.start t + Track.length t < 2 ^ 32) ts.

(** A table that one of the two loaders has built. *)
Definition built (ts : list Track.t) : Prop :=
  (exists mcn lines st,
      LoadCueSheet mcn true lines = Some (true, st) /\ cue_tracks st = ts)
  \/ (exists a s, LoadIsoFile a s = (true, ts)).

(** What holds of the table while [LoadCueSheet] runs. *)
Definition table_inv (ts : list Track.t) : Prop :=
  numbers_1_to_N ts /\ adjacent ends_before ts /\ Forall in_range ts.

(** What holds of a table that has been built. *)
Definition complete (ts : list Track.t) : Prop :=
  table_inv ts /\ (2 <= List.length ts)%nat /\ Track.length (back ts) = 0.

(** What holds between two lines of the cue sheet. *)
Definition cue_inv (st : CueState) : Prop :=
  table_inv (cue_tracks st) /\ Track.length (cue_track st) = 0.

(** The four geometries that [LoadIsoFile] tries, in its order. *)
Definition probes : list (Z * bool) :=
  [ (2048, false); (2352, false); (2336, true); (2352, true) ].

(** A track that ends no earlier than it starts. *)
Definition forward (t : Track.t) : Prop :=
  Track.start t <= u32 (Track.start t + Track.length t).







(** [prestart] is present and lies after the start of the track. *)
Definition prestart_after_start (b : Builder) (prestart : Z) : Prop :=
  0 <= prestart /\ prestart > i32 (Track.start (b_curr b)).

(** The track that was [tracks.back()] before a call of [AddTrack], in
    the table after the call. *)
Definition previous (b b' : Builder) : Track.t :=
  nth (List.length (b_tracks b) - 1) (b_tracks b') Track.empty.

(** One of the three error checks of a track that is not the first
    holds, on the values after the placement. *)
Definition inconsistent (b b' : Builder) : Prop :=
  b_tracks b <> []
  /\ (Track.number (b_curr b') <= 1
      \/ Track.number (previous b b') + 1 <> Track.number (b_curr b')
      \/ Track.start (b_curr b')
         < u32 (Track.start (previous b b') + Track.length (previous b b'))).

(** The current track has been appended to the table. *)
Definition appended (b b' : Builder) : Prop :=
  b_tracks b' =
  match b_tracks b with
  | [] => [b_curr b']
  | _ :: _ => removelast (b_tracks b) ++ [previous b b'; b_curr b']
  end.

(** The table has as many tracks as before. *)
Definition not_appended (b b' : Builder) : Prop :=
  b_tracks b' =
  match b_tracks b with
  | [] => []
  | _ :: _ => removelast (b_tracks b) ++ [previous b b']
  end.

(** A line at which [LoadCueSheet] adds the pending track. *)
Definition adds_track (line : CueLine) : bool :=
  match line with
  | TRACK _ _ | FILE _ => true
  | _ => false
  end.

(** The upper bound of the range of a track in [GetTrack]. *)
Definition upper_bound (t : Track.t) : Z :=
  u32 (Track.start t + Track.length t).

(** The lower bound that [GetTrack] has reached behind the tracks [pre],
    having begun with [first]. *)
Definition lower_bound_after (pre : list Track.t) (first : Z) : Z :=
  last (map upper_bound pre) first.

(** The last entry starts where the entry before it ends, and is empty. *)
Definition sealed (ts : list Track.t) : Prop :=
  exists others prev lo,
    ts = others ++ [prev; lo]
    /\ Track.start lo = upper_bound prev
    /\ Track.length lo = 0.


(** ** Example data *)

(** A header as on a little-endian host. *)
Definition example_header : Header :=
  mkHeader 1826090 0x8010 0x8010 44100 2
    (fun frames => mkTMSF (frames / 75 / 60) (frames / 75 mod 60) (frames mod 75)).

(** A decoded audio file of the given length in bytes. *)
Definition wav (bytes : Z) : TrackFile :=
  AudioFile (Some (mkSample 0x8010 44100 2 bytes (fun _ => true))).

(** Two audio files of 100 sectors each, the second track after a pregap
    of two seconds. *)
Definition two_file_cue : list CueLine :=
  [ FILE (wav 235200); TRACK 1 AUDIO; INDEX 1 0 true;
    FILE (wav 235200); TRACK 2 AUDIO; PREGAP 150 true; INDEX 1 0 true ].

Definition two_file_table : list Track.t :=
  [ Track.mk (Some (mkPtr 0 (wav 235200))) 0 100 0 2352 1 0 false;
    Track.mk (Some (mkPtr 1 (wav 235200))) 250 100 0 2352 2 0 false;
    Track.mk None 350 0 0 2352 3 0 false ].

Definition two_file_image : Image := mkImage two_file_table EmptyString 0.

(** The player as [CDROM_Interface_Image] constructs it: the channel is
    there and dormant. *)
Definition idle_player : imagePlayer :=
  mkPlayer None (Some (mkChannel false 0)) None None 0 0 0 0 false false.

(** The player while the second track of [two_file_table] plays. *)
Definition busy_player : imagePlayer :=
  mkPlayer (Some (mkPtr 1 (wav 235200))) (Some (mkChannel true 44100))
           (Some 0) (Some AddSamples_s16) 250 100 0 58800 true false.

Definition good_mutex : Mutex := mkMutex true true.

(** One audio file of 100 sectors whose only track has a pregap of two
    seconds. *)
Definition pregap_cue : list CueLine :=
  [ FILE (wav 235200); TRACK 1 AUDIO; PREGAP 150 true; INDEX 1 0 true ].

Definition pregap_table : list Track.t :=
  [ Track.mk (Some (mkPtr 0 (wav 235200))) 150 100 0 2352 1 0 false;
    Track.mk None 250 0 0 2352 2 0 false ].

(** An ISO file of 39704 bytes with cooked sectors: zeros but for the
    volume descriptor at sector 16. *)
Definition cooked_iso : ifstream :=
  mkStream (repeat x00 (Z.to_nat 32768)
            ++ [x01; "C"; "D"; "0"; "0"; "1"; x01]%byte
            ++ repeat x00 (Z.to_nat 6929))
           false.

(** The drive with [cooked_iso] loaded: a data track of 19 sectors and the
    lead-out at sector 19. *)
Definition cooked_iso_image : Image :=
  mkImage (snd (LoadIsoFile 0 cooked_iso)) EmptyString 0.

(** The state of [AddTrack] when the second track of a cue sheet with two
    files is added: the first file has 235201 bytes, one byte more than
    100 sectors. *)
Definition second_file_builder : Builder :=
  mkBuilder [ Track.mk (Some (mkPtr 0 (wav 235201))) 0 0 0 2352 1 0 false ]
            (Track.mk (Some (mkPtr 1 (wav 235200))) 0 0 0 2352 2 0 false)
            0 0.

(** A file that is a cue sheet and an ISO image at once: it begins with
    three [TRACK] lines, the third of which finds the pending track
    misnumbered, goes on with zeros (a line that is too long) and holds at
    sector 16, past the system area, the volume descriptor of an image
    with cooked sectors. *)
Definition cue_and_iso_text : string :=
  ("TRACK 1 AUDIO" ++ String "010"%char
     ("TRACK 3 AUDIO" ++ String "010"%char
        ("TRACK 4 AUDIO" ++ String "010"%char EmptyString)))%string.

Definition cue_and_iso_bytes : list byte :=
  list_byte_of_string cue_and_iso_text
  ++ repeat x00 (Z.to_nat (32768 - 42))
  ++ [x01; "C"; "D"; "0"; "0"; "1"; x01]%byte
  ++ repeat x00 (Z.to_nat 6929).

Definition cue_and_iso : ImageFile :=
  mkImageFile true [ TRACK 1 AUDIO; TRACK 3 AUDIO; TRACK 4 AUDIO; TooLong ]
              (mkStream cue_and_iso_bytes false) 0.

(** The player has no session whose position [GetAudioSub] follows: it
    has no track file, or the session began at sector 0. *)
Definition unplayed (p : imagePlayer) : Prop :=
  trackFile p = None \/ startSector p = 0.

(** The player while a session that began at sector 0 of
    [two_file_table] has played for a second. *)
Definition from_zero_player : imagePlayer :=
  mkPlayer (Some (mkPtr 0 (wav 235200))) (Some (mkChannel true 44100))
           (Some 0) (Some AddSamples_s16) 0 100 44100 58800 true false.

(** A run of the callback in which every mutex call succeeds. *)
Definition feed_of (decoded played_redbook_frames : Z) : Feed :=
  mkFeed good_mutex good_mutex decoded played_redbook_frames.

(** The player with another count of played frames. *)
Definition set_played (p : imagePlayer) (played : Z) : imagePlayer :=
  mkPlayer (trackFile p) (channel p) (cd p) (addFrames p) (startSector p)
           (totalRedbookFrames p) played (totalTrackFrames p)
           (isPlaying p) (isPaused p).

(** The callback gets past its guards. *)
Definition passes_guards (feed : Feed) (p : imagePlayer)
    (desired_track_frames : Z) : Prop :=
  trackFile p <> None /\ cd p <> None /\ desired_track_frames <> 0
  /\ locks (feed_mutex feed) = true.

(** The player has the channel and the method that the callback hands
    the decoded frames to. *)
Definition has_output (p : imagePlayer) : Prop :=
  channel p <> None /\ addFrames p <> None.

(** A line that cannot be part of a cue sheet that loads: one that is too
    long or begins with an unknown keyword, a [TRACK] of an unknown type,
    an [INDEX] or a [PREGAP] without a time, a [FILE] that cannot be
    opened. *)
Definition malformed (line : CueLine) : bool :=
  match line with
  | TooLong | Unrecognized => true
  | TRACK _ OtherType => true
  | TRACK _ _ => false
  | INDEX _ _ success | PREGAP _ success => negb success
  | FILE obj => open_error obj
  | CATALOG _ | Ignored => false
  end.

Definition is_TRACK (line : CueLine) : bool :=
  match line with
  | TRACK _ _ => true
  | _ => false
  end.

(** The number of [TRACK] lines. *)
Definition track_lines (lines : list CueLine) : nat :=
  List.length (filter is_TRACK lines).


(** Every entry of [ts] is at its place in [ts'] with at most its length
    changed, and unchanged if it is not the last of [ts]. *)
Definition kept (ts ts' : list Track.t) : Prop :=
  forall i t,
    nth_error ts i = Some t ->
    exists len,
      nth_error ts' i = Some (Track.set_length t len)
      /\ ((S i < List.length ts)%nat -> len = Track.length t).

(** What relates the flag [canAddTrack] and the pending track to the
    table after [k] lines with [TRACK]: a pending track that is to be
    added is one more than the table holds; one that is not to be added
    has the number of the last entry, or the number 0 of a track that no
    [TRACK] line has numbered. *)
Definition pending_inv (st : CueState) (k : nat) : Prop :=
  if c_canAddTrack st then S (List.length (cue_tracks st)) = k
  else List.length (cue_tracks st) = k
       /\ Track.number (cue_track st)
          = match cue_tracks st with
            | [] => 0
            | _ :: _ => Track.number (back (cue_tracks st))
            end.


(** [skip] in [AddTrack]: the sectors between index 0 and index 1 of
    the current track, 0 without an index 0. *)
Definition index_gap (b : Builder) (prestart : Z) : Z :=
  if prestart >=? 0 then i32 (u32 (Track.start (b_curr b) - prestart)) else 0.

(** A cue sheet with one file of three tracks: the second has an index 0
    a second before its index 1, the third a [PREGAP] of two seconds. *)
Definition one_file_cue : list CueLine :=
  [ FILE (wav 705600); TRACK 1 AUDIO; INDEX 1 0 true;
    TRACK 2 AUDIO; INDEX 0 100 true; INDEX 1 175 true;
    TRACK 3 AUDIO; PREGAP 150 true; INDEX 1 275 true ].

(** The state of [AddTrack] when the third track of [one_file_cue] is
    added. *)
Definition third_track_builder : Builder :=
  mkBuilder
    [ Track.mk (Some (mkPtr 0 (wav 705600))) 0 100 0 2352 1 0 false;
      Track.mk (Some (mkPtr 0 (wav 705600))) 175 0 411600 2352 2 0 false ]
    (Track.mk (Some (mkPtr 0 (wav 705600))) 275 0 0 2352 3 0 false)
    0 0.

(** What a [TRACK] line says of its track: the number as the [uint8_t] of
    the track holds it, the size of the sectors, the attribute and the
    flag of mode 2. *)
Definition described (t : Track.t) : Z * Z * Z * bool :=
  (Track.number t, Track.sectorSize t, Track.attr t, Track.mode2 t).

Definition declared (line : CueLine) : option (Z * Z * Z * bool) :=
  match line with
  | TRACK track_number type =>
      option_map described
        (apply_type (Track.set_number Track.empty (u8 track_number)) type)
  | _ => None
  end.

Definition data_of (d : option (Z * Z * Z * bool)) : bool :=
  match d with
  | Some (_, _, attr, _) => attr =? 0x40
  | None => false
  end.

(** The line is a [TRACK] line of a data track. *)
Definition declares_data (line : CueLine) : bool := data_of (declared line).

(** The entries of the table, with the pending track if it is to be
    added, are what the [TRACK] lines so far have declared. *)
Definition described_inv (st : CueState)
    (seen : list (option (Z * Z * Z * bool))) : Prop :=
  map (fun t => Some (described t)) (cue_tracks st)
  ++ (if c_canAddTrack st then [Some (described (cue_track st))] else [])
  = seen.

(** A cue sheet with a data track in a binary file of two cooked sectors
    and an audio track. *)
Definition mixed_cue : list CueLine :=
  [ FILE (BinaryFile (mkStream (repeat x00 (Z.to_nat 4096)) false));
    TRACK 1 MODE1_2048; INDEX 1 0 true;
    FILE (wav 235200); TRACK 2 AUDIO; INDEX 1 0 true ].

(** Two binary files: one of 1704 bytes, which is less than a sector,
    and one of one raw sector. *)
Definition short_bin : TrackFile :=
  BinaryFile (mkStream (repeat x00 (Z.to_nat 1704)) false).
Definition sector_bin : TrackFile :=
  BinaryFile (mkStream (repeat x00 (Z.to_nat 2352)) false).

(** A cue sheet whose second track has its index at sector 3, behind the
    end of the first file, and whose third track is in a second file. *)
Definition short_file_cue : list CueLine :=
  [ FILE short_bin; TRACK 1 AUDIO; INDEX 1 0 true;
    TRACK 2 AUDIO; INDEX 1 3 true;
    FILE sector_bin; TRACK 3 AUDIO; INDEX 1 0 true ].

(** The state of [AddTrack] when the third track of [short_file_cue] is
    added: the skip offset of the second track, 7056, lies behind the
    end of its file. *)
Definition short_file_builder : Builder :=
  mkBuilder
    [ Track.mk (Some (mkPtr 0 short_bin)) 0 3 0 2352 1 0 false;
      Track.mk (Some (mkPtr 0 short_bin)) 3 0 7056 2352 2 0 false ]
    (Track.mk (Some (mkPtr 1 sector_bin)) 0 0 0 2352 3 0 false)
    0 0.

(** The table that [LoadCueSheet] builds from [short_file_cue]: the
    length of the second track has wrapped, and the third track starts
    before the second. *)
Definition short_file_table : list Track.t :=
  [ Track.mk (Some (mkPtr 0 short_bin)) 0 3 0 2352 1 0 false;
    Track.mk (Some (mkPtr 0 short_bin)) 3 4294967295 7056 2352 2 0 false;
    Track.mk (Some (mkPtr 1 sector_bin)) 2 1 0 2352 3 0 false;
    Track.mk None 3 0 0 2352 4 0 false ].


(** * Properties *)

(** ** Machine integers *)

Lemma u32_range z : 0 <= u32 z < 2 ^ 32.
Proof. unfold u32. apply Z.mod_pos_bound. lia. Qed.

Lemma u32_small z : 0 <= z < 2 ^ 32 -> u32 z = z.
Proof. intros. unfold u32. now apply Z.mod_small. Qed.

Lemma u64_small z : 0 <= z < 2 ^ 64 -> u64 z = z.
Proof. intros. unfold u64. now apply Z.mod_small. Qed.

Lemma i32_small z : - 2 ^ 31 <= z < 2 ^ 31 -> i32 z = z.
Proof. intros. unfold i32. rewrite Z.mod_small; lia. Qed.

Lemma i32_u64 z : i32 (u64 z) = i32 z.
Proof.
  unfold i32, u64. f_equal.
  rewrite (Z.mod_eq z (2 ^ 64)) by lia.
  replace (z - 2 ^ 64 * (z / 2 ^ 64) + 2 ^ 31)
    with (z + 2 ^ 31 + (- (z / 2 ^ 64) * 2 ^ 32) * 2 ^ 32) by lia.
  apply Z.mod_add. lia.
Qed.

Lemma i32_u32 z : i32 (u32 z) = i32 z.
Proof.
  unfold i32, u32. f_equal.
  rewrite (Z.mod_eq z (2 ^ 32)) by lia.
  replace (z - 2 ^ 32 * (z / 2 ^ 32) + 2 ^ 31)
    with (z + 2 ^ 31 + (- (z / 2 ^ 32)) * 2 ^ 32) by lia.
  apply Z.mod_add. lia.
Qed.

Lemma u32_i32 z : u32 (i32 z) = u32 z.
Proof.
  unfold i32, u32.
  rewrite (Z.mod_eq (z + 2 ^ 31) (2 ^ 32)) by lia.
  replace (z + 2 ^ 31 - 2 ^ 32 * ((z + 2 ^ 31) / 2 ^ 32) - 2 ^ 31)
    with (z + (- ((z + 2 ^ 31) / 2 ^ 32)) * 2 ^ 32) by lia.
  apply Z.mod_add. lia.
Qed.

(** ** Stopping *)

Lemma StopAudio_flags p :
  let p' := snd (StopAudio p) in
  isPlaying p' = false /\ isPaused p' = false /\ output_enabled p' = false
  /\ session p' = session p.
Proof.
  unfold output_enabled; destruct p as [tf [c|] ? ? ? ? ? ? ? ?]; cbn; auto.
Qed.

(** C7 (as amended): [StopAudio] always returns [true], clears the playing
    and the paused flag and disables the output; it leaves the other fields
    of the session (the track file, the start sector, the lengths and the
    frame counters) as they are; a second call changes nothing more. *)
Theorem StopAudio_keeps_session_idempotent (p : imagePlayer) :
  fst (StopAudio p) = true
  /\ isPlaying (snd (StopAudio p)) = false
  /\ isPaused (snd (StopAudio p)) = false
  /\ output_enabled (snd (StopAudio p)) = false
  /\ session (snd (StopAudio p)) = session p
  /\ StopAudio (snd (StopAudio p)) = StopAudio p.
Proof.
  pose proof (StopAudio_flags p) as (Hpl & Hpa & Hout & Hs).
  repeat split; auto.
  destruct p as [tf [c|] ? ? ? ? ? ? ? ?]; reflexivity.
Qed.

(** C7 (as stated) fails: after [StopAudio] on a player that was playing,
    the fields of the session are still those of the request. *)
Lemma StopAudio_session_not_cleared :
  ~ session_cleared (snd (StopAudio busy_player))
  /\ trackFile (snd (StopAudio busy_player)) = Some (mkPtr 1 (wav 235200))
  /\ startSector (snd (StopAudio busy_player)) = 250
  /\ totalRedbookFrames (snd (StopAudio busy_player)) = 100.
Proof.
  repeat split; try reflexivity.
  unfold session_cleared; cbn; discriminate.
Qed.

(** ** Starting playback *)

Lemma ceil_div_add n d : 0 < d -> (n + (d - 1)) / d = ceil_div n d.
Proof.
  intros Hd. unfold ceil_div.
  pose proof (Z.div_mod (- n) d ltac:(lia)) as E.
  pose proof (Z.mod_pos_bound (- n) d Hd) as B.
  symmetry. apply Z.div_unique with (r := d - 1 - (- n) mod d); lia.
Qed.


Lemma sanity_check_fails h this p start len :
  len = 0
  \/ GetTrack h (tracks this) (u32 start) = None
  \/ (exists track,
         deref (tracks this) (GetTrack h (tracks this) (u32 start)) = Some track
         /\ (Track.attr track = 0x40 \/ Track.file track = None)) ->
  sanity_check h this p start len = None.
Proof.
  unfold sanity_check.
  intros [-> | [-> | (track & -> & [Ha | Hf])]]; try reflexivity.
  - destruct (len =? 0); reflexivity.
  - destruct (len =? 0); [reflexivity|]. now rewrite Ha.
  - destruct (len =? 0); [reflexivity|]. rewrite Hf.
    destruct (Track.attr track =? 64); reflexivity.
Qed.

(** C6: when the length is 0, the lookup of the start sector fails, the
    owning track is a data track or the track has no file,
    [PlayAudioSector] returns [false] after a [StopAudio]: the playing and
    the paused flag are cleared, the output is disabled, and no field of a
    session is recorded. *)
Theorem PlayAudioSector_guard_stops
    (h : Header) (m : Mutex) (this : Image) (p : imagePlayer) (start len : Z) :
  len = 0
  \/ GetTrack h (tracks this) (u32 start) = None
  \/ (exists track,
         deref (tracks this) (GetTrack h (tracks this) (u32 start)) = Some track
         /\ (Track.attr track = 0x40 \/ Track.file track = None)) ->
  PlayAudioSector h m this p start len = (false, snd (StopAudio p))
  /\ isPlaying (snd (PlayAudioSector h m this p start len)) = false
  /\ isPaused (snd (PlayAudioSector h m this p start len)) = false
  /\ output_enabled (snd (PlayAudioSector h m this p start len)) = false
  /\ session (snd (PlayAudioSector h m this p start len)) = session p.
Proof.
  intros H. apply (sanity_check_fails h this p) in H.
  unfold PlayAudioSector. rewrite H. cbn [snd].
  split; [reflexivity|]. apply StopAudio_flags.
Qed.

Lemma PlayAudioSector_guard_stops_witness :
  PlayAudioSector example_header good_mutex two_file_image busy_player 350 10
  = (false, snd (StopAudio busy_player))
  /\ session (snd (PlayAudioSector example_header good_mutex two_file_image
                                   busy_player 350 10))
     = session busy_player.
Proof.
  pose proof (PlayAudioSector_guard_stops example_header good_mutex
                two_file_image busy_player 350 10) as H.
  destruct H as (H1 & _ & _ & _ & H5).
  - right; left. reflexivity.
  - split; [exact H1 | exact H5].
Defined.






(** ** The invariant of the table *)

Lemma numbers_snoc l x :
  numbers_1_to_N (l ++ [x]) <->
  numbers_1_to_N l /\ Track.number x = Z.of_nat (S (List.length l)).
Proof.
  unfold numbers_1_to_N.
  rewrite map_app, length_app, Nat.add_comm. cbn [List.length Nat.add map].
  rewrite seq_S, map_app. cbn [map Nat.add].
  split.
  - intros E. apply app_inj_tail in E. destruct E as [E1 E2]. now split.
  - intros [E1 E2]. now rewrite E1, E2.
Qed.

Lemma adjacent_snoc2 P l a a' b :
  adjacent P (l ++ [a]) ->
  (forall x, P x a -> P x a') ->
  P a' b ->
  adjacent P (l ++ [a'; b]).
Proof.
  intros H Hx Hab. induction l as [|x [|y l] IH].
  - cbn. auto.
  - cbn in *. intuition.
  - cbn in H. destruct H as [Hxy H]. specialize (IH H).
    cbn. split; [exact Hxy | exact IH].
Qed.

Lemma adjacent_split P pre a b post :
  adjacent P (pre ++ a :: b :: post) -> P a b.
Proof.
  induction pre as [|x pre IH]; cbn.
  - intros [H _]. exact H.
  - intros [_ H]. apply IH. exact H.
Qed.

Lemma back_snoc l x : back (l ++ [x]) = x.
Proof. unfold back. apply last_last. Qed.

Lemma back_snoc2 l x y : back (l ++ [x; y]) = y.
Proof.
  change (l ++ [x; y]) with (l ++ [x] ++ [y]). rewrite app_assoc. apply back_snoc.
Qed.

Lemma tracks_split_last (ts : list Track.t) :
  ts <> [] -> ts = removelast ts ++ [back ts].
Proof. intros H. now apply app_removelast_last. Qed.

Lemma match_snoc {A} (l : list Track.t) (x : Track.t) (X Y : A) :
  match l ++ [x] with [] => X | _ :: _ => Y end = Y.
Proof. destruct l; reflexivity. Qed.

(** [AddTrack] on a table that is not empty: past the test of [prestart]
    it ends in the error checks, on a previous track that differs from
    [tracks.back()] in its length at most. *)
Lemma AddTrack_subsequent b prestart currPregap others prev ok b' :
  b_tracks b = others ++ [prev] ->
  AddTrack b prestart currPregap = Some (ok, b') ->
  ((prestart >=? 0) && (prestart >? i32 (Track.start (b_curr b))) = true
   /\ ok = false /\ b' = b)
  \/ ((prestart >=? 0) && (prestart >? i32 (Track.start (b_curr b))) = false
      /\ exists prev' curr' shift' totalPregap',
        consistency_checks others prev' curr' shift' totalPregap' = (ok, b')
        /\ Track.number prev' = Track.number prev
        /\ Track.start prev' = Track.start prev
        /\ (Track.length prev' = Track.length prev
            \/ 0 <= Track.length prev' < 2 ^ 32)
        /\ Track.number curr' = Track.number (b_curr b)
        /\ Track.length curr' = Track.length (b_curr b)
        /\ 0 <= Track.start curr' < 2 ^ 32).
Proof.
  intros Ht. unfold AddTrack. rewrite Ht, match_snoc, back_snoc, removelast_last.
  destruct ((prestart >=? 0) && (prestart >? i32 (Track.start (b_curr b)))).
  { intros E. injection E as <- <-. left. auto. }
  intros E. right. split; [reflexivity|].
  destruct (same_file (Track.file prev) (Track.file (b_curr b))).
  - injection E as E.
    eexists _, _, _, _. split; [exact E|].
    cbn. destruct (Track.length prev =? 0); cbn;
      repeat split; auto using u32_range; try apply u32_range.
  - destruct (Track.file prev) as [pf|]; [|discriminate].
    destruct (Track.sectorSize prev =? 0); [discriminate|].
    injection E as E.
    eexists _, _, _, _. split; [exact E|].
    cbn.
    destruct (negb (Z.rem _ _ =? 0)); cbn;
      repeat split; auto using u32_range; try apply u32_range.
Qed.

Lemma consistency_checks_true others prev curr shift totalPregap b' :
  consistency_checks others prev curr shift totalPregap = (true, b') ->
  b' = mkBuilder (others ++ [prev; curr]) curr shift totalPregap
  /\ Track.number curr = Track.number prev + 1
  /\ ends_before prev curr.
Proof.
  unfold consistency_checks, ends_before.
  destruct (Track.number curr <=? 1); [discriminate|].
  destruct (Track.number prev + 1 =? Track.number curr) eqn:En; [|discriminate].
  destruct (Track.start curr <? u32 (Track.start prev + Track.length prev)) eqn:Es;
    [discriminate|].
  cbn. intros E. injection E as <-. repeat split; lia.
Qed.

(** A successful [AddTrack] keeps the invariant of the table and appends
    the current track. *)
Lemma AddTrack_inv b prestart currPregap b' :
  table_inv (b_tracks b) ->
  Track.length (b_curr b) = 0 ->
  AddTrack b prestart currPregap = Some (true, b') ->
  table_inv (b_tracks b')
  /\ Track.length (b_curr b') = 0
  /\ back (b_tracks b') = b_curr b'
  /\ List.length (b_tracks b') = S (List.length (b_tracks b)).
Proof.
  intros (Hn & Ha & Hr) Hl H.
  destruct (b_tracks b) as [|t0 l0] eqn:Ht.
  - unfold AddTrack in H. rewrite Ht in H.
    destruct ((prestart >=? 0) && _); [discriminate|].
    destruct (Track.number (b_curr b) =? 1) eqn:E1; [|discriminate].
    injection H as <-. cbn.
    repeat split; auto.
    + unfold numbers_1_to_N. cbn. f_equal. lia.
    + repeat constructor; cbn; try apply u32_range; lia.
  - assert (Hs : b_tracks b = removelast (t0 :: l0) ++ [back (t0 :: l0)]).
    { rewrite Ht. apply tracks_split_last. discriminate. }
    set (others := removelast (t0 :: l0)) in *.
    set (prev := back (t0 :: l0)) in *.
    assert (Hlen : List.length (t0 :: l0) = S (List.length others)).
    { rewrite <- Ht, Hs, length_app. cbn. lia. }
    rewrite <- Ht, Hs in Hn, Ha, Hr.
    destruct (AddTrack_subsequent _ _ _ _ _ _ _ Hs H)
      as [(_ & Hf & _) | (_ & prev' & curr' & sh & tp & Hc & Hpn & Hps & Hpl & Hcn & Hcl & Hcs)];
      [discriminate|].
    apply consistency_checks_true in Hc. destruct Hc as (-> & Hnum & Hord).
    apply numbers_snoc in Hn. destruct Hn as [Hn Hnp].
    apply Forall_app in Hr. destruct Hr as [Hro Hrp].
    apply Forall_inv in Hrp. destruct Hrp as [Hrs Hrl].
    cbn [b_tracks b_curr].
    repeat split.
    + change (others ++ [prev'; curr']) with (others ++ [prev'] ++ [curr']).
      rewrite app_assoc. apply numbers_snoc. split.
      * apply numbers_snoc. split; [exact Hn | congruence].
      * rewrite length_app, Hnum, Hpn, Hnp. cbn [List.length]. lia.
    + apply adjacent_snoc2 with (a := prev); auto.
      unfold ends_before. intros x. now rewrite Hps.
    + apply Forall_app. split; [exact Hro|].
      assert (in_range prev').
      { split; [now rewrite Hps | destruct Hpl as [-> | ?]; lia]. }
      assert (in_range curr') by (split; [exact Hcs | lia]).
      constructor; [assumption | constructor; [assumption | constructor]].
    + congruence.
    + apply back_snoc2.
    + rewrite length_app, Hlen. cbn [List.length]. lia.
Qed.

Lemma add_pending_inv st st' :
  cue_inv st -> add_pending st = Some (true, st') ->
  cue_inv st' /\ (List.length (cue_tracks st) <= List.length (cue_tracks st'))%nat.
Proof.
  intros [Ht Hl]. unfold add_pending.
  destruct (c_canAddTrack st).
  - destruct (AddTrack (c_build st) (c_prestart st) (c_currPregap st))
      as [[[|] b]|] eqn:E; try discriminate.
    intros H. injection H as <-.
    destruct (AddTrack_inv _ _ _ _ Ht Hl E) as (H1 & H2 & _ & H4).
    unfold cue_inv, cue_tracks, cue_track. cbn. unfold cue_tracks in H4.
    repeat split; auto; try apply H1. lia.
  - intros H. injection H as <-. split; [now split | lia].
Qed.

Lemma cue_line_inv st line st' :
  cue_inv st -> cue_line st line = Some (true, st') -> cue_inv st'.
Proof.
  intros Hi. destruct line as [n ty | ix fr ok | obj | fr ok | s | | |]; cbn.
  - destruct (add_pending st) as [[ok st1]|] eqn:E; [|discriminate].
    destruct ty; cbn; try discriminate; intros H; injection H as -> <-;
      apply (add_pending_inv _ _ Hi) in E; destruct E as [[E1 E2] _];
      split; cbn; auto.
  - destruct (ix =? 1); [|destruct (ix =? 0)]; intros H; injection H as -> <-;
      destruct Hi; split; auto.
  - destruct (add_pending st) as [[ok st1]|] eqn:E; [|discriminate].
    destruct (open_error obj); [discriminate|].
    intros H; injection H as -> <-.
    apply (add_pending_inv _ _ Hi) in E. destruct E as [[E1 E2] _].
    split; cbn; auto.
  - intros H; injection H as -> <-. destruct Hi; split; auto.
  - intros H; injection H as <-. destruct Hi; split; auto.
  - intros H; injection H as <-. exact Hi.
  - discriminate.
  - discriminate.
Qed.

Lemma cue_lines_inv lines : forall st st',
  cue_inv st -> cue_lines st lines = Some (true, st') -> cue_inv st'.
Proof.
  induction lines as [|line rest IH]; intros st st' Hi; cbn.
  - intros H; injection H as <-. exact Hi.
  - destruct (cue_line st line) as [[[|] st1]|] eqn:E; try discriminate.
    apply IH. exact (cue_line_inv _ _ _ Hi E).
Qed.

Lemma cue_start_inv mcn : cue_inv (cue_start mcn).
Proof.
  repeat split; cbn; auto.
Qed.

Lemma cue_finish_complete st st' :
  cue_inv st -> cue_finish st = Some (true, st') -> complete (cue_tracks st').
Proof.
  intros [Ht Hl]. unfold cue_finish.
  destruct (AddTrack (c_build st) (c_prestart st) (c_currPregap st))
    as [[[|] b]|] eqn:E1; try discriminate.
  destruct (AddTrack_inv _ _ _ _ Ht Hl E1) as (H1 & H2 & _ & H4).
  match goal with
  | |- match AddTrack ?bb _ _ with _ => _ end = _ -> _ =>
      destruct (AddTrack bb (-1) 0) as [[ok b2]|] eqn:E2; [|discriminate]
  end.
  intros H. injection H as -> <-.
  apply AddTrack_inv in E2; cbn; auto.
  destruct E2 as (G1 & G2 & G3 & G4). cbn in G4.
  unfold complete, cue_tracks. cbn.
  repeat split; try apply G1.
  - unfold cue_tracks in G4. cbn in G4. lia.
  - rewrite G3. exact G2.
Qed.

Lemma LoadCueSheet_complete mcn opened lines st :
  LoadCueSheet mcn opened lines = Some (true, st) -> complete (cue_tracks st).
Proof.
  unfold LoadCueSheet. destruct opened; cbn; [|discriminate].
  destruct (cue_lines (cue_start mcn) lines) as [[[|] st1]|] eqn:E;
    try discriminate.
  apply cue_finish_complete.
  exact (cue_lines_inv _ _ _ (cue_start_inv mcn) E).
Qed.

Lemma iso_table_complete a s sectorSize mode2 :
  complete (iso_table a s sectorSize mode2).
Proof.
  unfold iso_table.
  set (n := u32 (Z.quot (BinaryFile_getLength s) sectorSize)).
  pose proof (u32_range (Z.quot (BinaryFile_getLength s) sectorSize)) as Hn.
  fold n in Hn.
  repeat split; cbn; auto; try lia.
  - unfold ends_before. cbn. rewrite u32_small; lia.
  - repeat constructor; cbn; lia.
Qed.

Lemma LoadIsoFile_table a s ts :
  LoadIsoFile a s = (true, ts) ->
  exists s' sectorSize mode2,
    In (sectorSize, mode2) probes /\ ts = iso_table a s' sectorSize mode2.
Proof.
  unfold LoadIsoFile, probes.
  destruct (failbit s); [discriminate|].
  destruct (CanReadPVD s _ false) as [s1 [|]].
  { intros E; injection E as <-. eexists _, _, _. split; [|reflexivity]. cbn; auto. }
  destruct (CanReadPVD s1 _ false) as [s2 [|]].
  { intros E; injection E as <-. eexists _, _, _. split; [|reflexivity]. cbn; auto. }
  destruct (CanReadPVD s2 _ true) as [s3 [|]].
  { intros E; injection E as <-. eexists _, _, _. split; [|reflexivity]. cbn; auto. }
  destruct (CanReadPVD s3 _ true) as [s4 [|]]; [|discriminate].
  intros E; injection E as <-. eexists _, _, _. split; [|reflexivity]. cbn; auto.
Qed.

Lemma built_complete ts : built ts -> complete ts.
Proof.
  intros [(mcn & lines & st & H & <-) | (a & s & H)].
  - exact (LoadCueSheet_complete _ _ _ _ H).
  - apply LoadIsoFile_table in H. destruct H as (s' & ss & m2 & _ & ->).
    apply iso_table_complete.
Qed.

(** ** The sector index *)

(** The walk finds a track for every sector between its first lower bound
    and the upper bound of the last track. *)
Lemma GetTrack_walk_covers ts : forall idx lower_bound sector,
  ts <> [] ->
  lower_bound <= sector ->
  sector < u32 (Track.start (back ts) + Track.length (back ts)) ->
  exists i track,
    GetTrack_walk ts idx lower_bound sector = Some (idx + i)%nat
    /\ nth_error ts i = Some track
    /\ sector < u32 (Track.start track + Track.length track).
Proof.
  induction ts as [|t rest IH]; intros idx lb s Hne Hlb Hub; [congruence|].
  cbn [GetTrack_walk].
  destruct ((lb <=? s) && (s <? u32 (Track.start t + Track.length t))) eqn:E.
  - exists 0%nat, t. rewrite Nat.add_0_r. repeat split. lia.
  - destruct rest as [|t' rest'].
    + cbn in Hub. lia.
    + destruct (IH (S idx) (u32 (Track.start t + Track.length t)) s)
        as (i & track & H1 & H2 & H3); [discriminate | lia | exact Hub |].
      exists (S i), track. rewrite H1. repeat split; auto.
Qed.

(** The walk stops at the first track whose upper bound lies above the
    sector. *)
Lemma GetTrack_walk_first pre b post : forall idx lower_bound sector,
  Forall (fun a => u32 (Track.start a + Track.length a) <= sector) pre ->
  lower_bound <= sector ->
  sector < u32 (Track.start b + Track.length b) ->
  GetTrack_walk (pre ++ b :: post) idx lower_bound sector
  = Some (idx + List.length pre)%nat.
Proof.
  induction pre as [|a pre IH]; intros idx lb s Hpre Hlb Hub; cbn.
  - replace ((lb <=? s) && (s <? u32 (Track.start b + Track.length b)))
      with true by lia.
    f_equal. lia.
  - inversion Hpre as [|? ? Ha Hrest]; subst.
    replace ((lb <=? s) && (s <? u32 (Track.start a + Track.length a)))
      with false by lia.
    rewrite IH; auto.
Qed.

Lemma adjacent_app_r P pre l : adjacent P (pre ++ l) -> adjacent P l.
Proof.
  induction pre as [|x pre IH]; [auto|]. cbn. intros [_ H]. auto.
Qed.

Lemma adjacent_prefix P pre a rest :
  adjacent P (pre ++ a :: rest) -> adjacent P (pre ++ [a]).
Proof.
  induction pre as [|x pre IH]; cbn.
  - auto.
  - intros [Hx H]. split; [|auto].
    destruct pre; cbn in *; exact Hx.
Qed.

Lemma prefix_ends_before pre a :
  adjacent ends_before (pre ++ [a]) ->
  Forall forward pre ->
  Forall (fun x => u32 (Track.start x + Track.length x) <= Track.start a) pre.
Proof.
  induction pre as [|x pre IH]; intros Ha Hf; [constructor|].
  inversion Hf as [|? ? Hx Hf']; subst.
  destruct Ha as [Hh Ht]. specialize (IH Ht Hf').
  constructor; [|exact IH].
  destruct pre as [|y pre'].
  - exact Hh.
  - cbn in Hh. unfold ends_before in Hh.
    inversion IH as [|? ? Hy _]; subst.
    inversion Hf' as [|? ? Hfy _]; subst. unfold forward in Hfy. lia.
Qed.

Lemma start_le_back post : forall b,
  adjacent ends_before (b :: post) ->
  Forall forward (b :: post) ->
  Track.start b <= Track.start (back (b :: post)).
Proof.
  induction post as [|c post IH]; intros b Ha Hf.
  - cbn. lia.
  - destruct Ha as [Hbc Ht].
    inversion Hf as [|? ? Hb Hf']; subst.
    specialize (IH c Ht Hf').
    change (back (b :: c :: post)) with (back (c :: post)).
    unfold ends_before in Hbc. unfold forward in Hb. lia.
Qed.

Lemma no_wrap_forward ts :
  Forall in_range ts -> no_wrap ts -> Forall forward ts.
Proof.
  unfold no_wrap. intros Hr Hw. rewrite Forall_forall in *.
  intros t Ht. specialize (Hr t Ht). specialize (Hw t Ht). cbn in Hw.
  destruct Hr. unfold forward. rewrite u32_small; lia.
Qed.

Lemma back_app_cons pre (b : Track.t) post : back (pre ++ b :: post) = back (b :: post).
Proof.
  unfold back. induction pre as [|x pre IH]; [reflexivity|].
  cbn [app]. rewrite <- IH. destruct (pre ++ b :: post) eqn:E; [|reflexivity].
  destruct pre; discriminate.
Qed.

(** On a sector of 32 bits [GetTrack] works on the sector itself. *)
Lemma GetTrack_uint32 h ts sector :
  0 <= sector < 2 ^ 32 ->
  GetTrack h ts sector
  = if (sector >? MAX_REDBOOK_SECTOR h)
       || (size ts <? MIN_REDBOOK_TRACKS)
       || (sector >=? Track.start (back ts))
    then None
    else GetTrack_walk ts 0 (Track.start (front ts)) sector.
Proof.
  intros H. unfold GetTrack. cbv zeta. now rewrite (u32_small sector H).
Qed.

Lemma GetTrack_guard h ts sector :
  (2 <= List.length ts)%nat ->
  0 <= sector < 2 ^ 32 ->
  sector <= MAX_REDBOOK_SECTOR h ->
  sector < Track.start (back ts) ->
  GetTrack h ts sector
  = GetTrack_walk ts 0 (Track.start (front ts)) sector.
Proof.
  intros Hn Hs Hm Hb. rewrite (GetTrack_uint32 h ts sector Hs).
  unfold size, MIN_REDBOOK_TRACKS.
  replace (sector >? MAX_REDBOOK_SECTOR h) with false by lia.
  replace (Z.of_nat (List.length ts) <? 2) with false by lia.
  replace (sector >=? Track.start (back ts)) with false by lia.
  reflexivity.
Qed.

Lemma complete_covers h ts sector :
  complete ts ->
  Track.start (front ts) <= sector < Track.start (back ts) ->
  sector <= MAX_REDBOOK_SECTOR h ->
  exists i track,
    GetTrack h ts sector = Some i
    /\ nth_error ts i = Some track
    /\ sector < u32 (Track.start track + Track.length track).
Proof.
  intros ((_ & _ & Hr) & Hn & Hl) [Hlo Hhi] Hm.
  assert (Hne : ts <> []) by (destruct ts; [cbn in Hn; lia | discriminate]).
  assert (Hb : in_range (back ts)).
  { rewrite Forall_forall in Hr. apply Hr.
    rewrite (tracks_split_last ts Hne) at 2. apply in_or_app. right. now left. }
  destruct Hb as [Hbs _].
  assert (Hf : in_range (front ts)).
  { rewrite Forall_forall in Hr. apply Hr.
    destruct ts; [congruence | now left]. }
  destruct Hf as [Hfs _].
  rewrite GetTrack_guard by (assumption || lia).
  destruct (GetTrack_walk_covers ts 0 (Track.start (front ts)) sector)
    as (i & track & H1 & H2 & H3); auto.
  - rewrite Hl, Z.add_0_r, u32_small; lia.
  - exists i, track. auto.
Qed.

Lemma complete_ordered ts pre a b post :
  complete ts -> no_wrap ts -> ts = pre ++ a :: b :: post ->
  Track.start a <= Track.start b
  /\ Track.start a + Track.length a <= Track.start b.
Proof.
  intros ((_ & Ha & Hr) & _) Hw ->.
  apply adjacent_split in Ha. unfold ends_before in Ha.
  assert (Hin : In a (pre ++ a :: b :: post)) by (apply in_or_app; right; now left).
  unfold no_wrap in Hw. rewrite Forall_forall in Hr, Hw.
  specialize (Hr a Hin). specialize (Hw a Hin). cbn in Hw. destruct Hr.
  rewrite u32_small in Ha; lia.
Qed.

Lemma end_le_back post : forall b,
  adjacent ends_before (b :: post) ->
  Forall forward (b :: post) ->
  in_range (back (b :: post)) ->
  Track.length (back (b :: post)) = 0 ->
  u32 (Track.start b + Track.length b) <= Track.start (back (b :: post)).
Proof.
  destruct post as [|c post]; intros b Ha Hf Hr Hl.
  - cbn in *. destruct Hr. rewrite Hl, Z.add_0_r, u32_small; lia.
  - destruct Ha as [Hbc Ht]. inversion Hf as [|? ? _ Hf']; subst.
    pose proof (start_le_back post c Ht Hf') as Hc.
    change (back (b :: c :: post)) with (back (c :: post)).
    unfold ends_before in Hbc. lia.
Qed.

Lemma complete_back_in_range ts : complete ts -> in_range (back ts).
Proof.
  intros ((_ & _ & Hr) & Hn & _).
  assert (Hne : ts <> []) by (destruct ts; [cbn in Hn; lia | discriminate]).
  rewrite Forall_forall in Hr. apply Hr.
  rewrite (tracks_split_last ts Hne) at 2. apply in_or_app. right. now left.
Qed.

(** A sector from the start of the first track up to its end resolves to
    the first track. *)
Lemma complete_first h ts sector :
  complete ts -> no_wrap ts ->
  Track.start (front ts) <= sector
                         < Track.start (front ts) + Track.length (front ts) ->
  sector <= MAX_REDBOOK_SECTOR h ->
  GetTrack h ts sector = Some 0%nat.
Proof.
  intros Hc Hw [Hlo Hhi] Hm.
  pose proof (complete_back_in_range ts Hc) as Hbr.
  destruct Hc as ((_ & Ha & Hr) & Hn & Hl).
  pose proof (no_wrap_forward ts Hr Hw) as Hf.
  destruct ts as [|a rest]; [cbn in Hn; lia|]. cbn [front hd] in *.
  assert (Ea : u32 (Track.start a + Track.length a)
               = Track.start a + Track.length a).
  { inversion Hr as [|? ? [? ?] _]; subst. inversion Hw; subst.
    apply u32_small. lia. }
  pose proof (end_le_back rest a Ha Hf Hbr Hl) as Hb.
  assert (Hsa : 0 <= Track.start a) by (inversion Hr as [|? ? [[? ?] ?] _]; lia).
  destruct Hbr as [[? ?] _].
  rewrite GetTrack_guard; auto; try lia.
  cbn [front hd GetTrack_walk]. rewrite Ea.
  replace ((Track.start a <=? sector)
           && (sector <? Track.start a + Track.length a)) with true by lia.
  reflexivity.
Qed.

(** A sector from the end of a track up to the end of the next one, in its
    gap or in its body, resolves to the next one. *)
Lemma complete_owner h ts pre a b post sector :
  complete ts -> no_wrap ts -> ts = pre ++ a :: b :: post ->
  Track.start a + Track.length a <= sector < Track.start b + Track.length b ->
  sector <= MAX_REDBOOK_SECTOR h ->
  GetTrack h ts sector = Some (S (List.length pre)).
Proof.
  intros Hc Hw E [Hlo Hhi] Hm.
  pose proof (complete_back_in_range ts Hc) as Hbr.
  destruct Hc as ((_ & Ha & Hr) & Hn & Hl).
  pose proof (no_wrap_forward ts Hr Hw) as Hf.
  subst ts.
  assert (Hfb : Forall forward (b :: post)).
  { apply Forall_app in Hf. destruct Hf as [_ Hf]. now inversion Hf. }
  assert (Hfp : Forall forward pre) by (apply Forall_app in Hf; tauto).
  assert (Hab : adjacent ends_before (b :: post)).
  { apply (adjacent_app_r _ (pre ++ [a])). now rewrite <- app_assoc. }
  assert (Hra : in_range a /\ Track.start a + Track.length a < 2 ^ 32).
  { unfold no_wrap in Hw. rewrite Forall_forall in Hr, Hw.
    split; [apply Hr | apply (Hw a)]; apply in_or_app; right; now left. }
  assert (Hrb : in_range b /\ Track.start b + Track.length b < 2 ^ 32).
  { unfold no_wrap in Hw. rewrite Forall_forall in Hr, Hw.
    split; [apply Hr | apply (Hw b)]; apply in_or_app; right; right; now left. }
  destruct Hra as [[? ?] ?]. destruct Hrb as [[? ?] ?].
  assert (Ea : u32 (Track.start a + Track.length a)
               = Track.start a + Track.length a) by (apply u32_small; lia).
  assert (Eb : u32 (Track.start b + Track.length b)
               = Track.start b + Track.length b) by (apply u32_small; lia).
  assert (Hbb : u32 (Track.start b + Track.length b)
                <= Track.start (back (pre ++ a :: b :: post))).
  { rewrite back_app_cons.
    change (back (a :: b :: post)) with (back (b :: post)).
    apply end_le_back; auto.
    - rewrite back_app_cons in Hbr. exact Hbr.
    - rewrite back_app_cons in Hl. exact Hl. }
  destruct Hbr as [[? ?] _].
  rewrite GetTrack_guard; auto; try lia.
  change (pre ++ a :: b :: post) with (pre ++ [a] ++ b :: post).
  rewrite app_assoc.
  rewrite GetTrack_walk_first.
  - rewrite length_app. cbn. f_equal. lia.
  - apply Forall_app. split.
    + apply adjacent_prefix in Ha.
      pose proof (prefix_ends_before pre a Ha Hfp) as Hp.
      eapply Forall_impl; [|exact Hp]. cbn. intros x Hx. lia.
    + constructor; [lia | constructor].
  - destruct pre as [|x pre'].
    + cbn. lia.
    + cbn [app front hd].
      apply adjacent_prefix in Ha.
      pose proof (prefix_ends_before (x :: pre') a Ha Hfp) as Hp.
      inversion Hp as [|? ? Hx _]; subst.
      inversion Hfp as [|? ? Hfx _]; subst. unfold forward in Hfx.
      lia.
  - lia.
Qed.

(** C2 (as amended): in a table that [LoadCueSheet] or [LoadIsoFile] has
    built the numbers of the tracks are 1 to N; when no track ends beyond
    [2^32], the start values do not decrease and every track ends at or
    before the start of the next one; every sector from the start of the
    first track up to the start of the last one that is no greater than
    [MAX_REDBOOK_SECTOR] resolves through [GetTrack] to a track of the
    table; and, again when no track ends beyond [2^32], that track is the
    one in whose range the sector lies: the first track from its start to
    its end, any other track from the end of the track before it to its
    own end, so that a sector in the gap before the start of a track
    resolves to the track that follows the gap. *)
Theorem built_table_invariants (h : Header) (ts : list Track.t) :
  built ts ->
  numbers_1_to_N ts
  /\ (no_wrap ts ->
      forall pre a b post, ts = pre ++ a :: b :: post ->
        Track.start a <= Track.start b
        /\ Track.start a + Track.length a <= Track.start b)
  /\ (forall sector,
        Track.start (front ts) <= sector < Track.start (back ts) ->
        sector <= MAX_REDBOOK_SECTOR h ->
        exists i track,
          GetTrack h ts sector = Some i
          /\ nth_error ts i = Some track
          /\ sector < u32 (Track.start track + Track.length track))
  /\ (no_wrap ts ->
      forall sector,
        Track.start (front ts) <= sector
                               < Track.start (front ts) + Track.length (front ts) ->
        sector <= MAX_REDBOOK_SECTOR h ->
        GetTrack h ts sector = Some 0%nat)
  /\ (no_wrap ts ->
      forall pre a b post sector, ts = pre ++ a :: b :: post ->
        Track.start a + Track.length a <= sector
                                       < Track.start b + Track.length b ->
        sector <= MAX_REDBOOK_SECTOR h ->
        GetTrack h ts sector = Some (S (List.length pre))).
Proof.
  intros Hb. apply built_complete in Hb.
  split; [apply Hb|]. split; [|split; [|split]].
  - intros Hw pre a b post E. exact (complete_ordered ts pre a b post Hb Hw E).
  - intros sector Hs Hm. exact (complete_covers h ts sector Hb Hs Hm).
  - intros Hw sector Hs Hm. exact (complete_first h ts sector Hb Hw Hs Hm).
  - intros Hw pre a b post sector E Hs Hm.
    exact (complete_owner h ts pre a b post sector Hb Hw E Hs Hm).
Qed.

Lemma two_file_table_built : built two_file_table.
Proof.
  left. exists EmptyString, two_file_cue. eexists. split.
  - vm_compute. reflexivity.
  - reflexivity.
Defined.

Lemma built_table_invariants_witness :
  numbers_1_to_N two_file_table
  /\ GetTrack example_header two_file_table 200 = Some 1%nat.
Proof.
  destruct (built_table_invariants example_header two_file_table
              two_file_table_built) as (H1 & _ & _ & _ & H4).
  split; [exact H1|].
  apply (H4 ltac:(repeat constructor)
            [] (nth 0 two_file_table Track.empty)
            (nth 1 two_file_table Track.empty)
            [nth 2 two_file_table Track.empty] 200 eq_refl).
  - cbn. lia.
  - cbn. lia.
Defined.

(** C2 (as stated) fails: the table built from [pregap_cue] has its first
    track start at sector 150 and its lead-out at sector 250, and sector 0,
    which lies before the start of the last track, resolves to no track. *)
Lemma built_table_sector_0_unresolved :
  built pregap_table
  /\ 0 <= 0 < Track.start (back pregap_table)
  /\ GetTrack example_header pregap_table 0 = None.
Proof.
  split; [|split; [cbn; lia | reflexivity]].
  left. exists EmptyString, pregap_cue. eexists. split.
  - vm_compute. reflexivity.
  - reflexivity.
Qed.

(** A table with a track that ends beyond [2^32] can be built, and then
    neither the order of the start values nor the ownership by the
    ranges of the tracks holds: in [short_file_table] the third track
    starts before the second, and sector 2, which lies in the third
    track from its start to its end, resolves to the first. *)
Lemma built_table_wrapped_unordered :
  built short_file_table
  /\ ~ no_wrap short_file_table
  /\ map Track.start short_file_table = [0; 3; 2; 3]
  /\ Track.start (nth 2 short_file_table Track.empty) <= 2
     < Track.start (nth 2 short_file_table Track.empty)
       + Track.length (nth 2 short_file_table Track.empty)
  /\ GetTrack example_header short_file_table 2 = Some 0%nat.
Proof.
  split.
  { left. exists EmptyString, short_file_cue. eexists. split.
    - vm_compute. reflexivity.
    - reflexivity. }
  split.
  { unfold no_wrap. rewrite Forall_forall. intros H.
    specialize (H (nth 1 short_file_table Track.empty)
                  ltac:(right; left; reflexivity)).
    cbn in H. lia. }
  split; [reflexivity|]. split; [cbn; lia | reflexivity].
Qed.

(** ** Inquiry *)

Lemma numbers_back ts :
  numbers_1_to_N ts -> ts <> [] -> Track.number (back ts) = size ts.
Proof.
  intros Hn Hne. unfold size.
  pose proof (tracks_split_last ts Hne) as E.
  rewrite E in Hn. apply numbers_snoc in Hn. destruct Hn as [_ Hn].
  pose proof (f_equal (@List.length _) E) as El.
  rewrite length_app in El. cbn in El. lia.
Qed.

Lemma GetAudioTrackInfo_answers h this n :
  GetAudioTrackInfo h this n <> None <->
  2 <= size (tracks this) /\ 1 <= n <= 99 /\ n < size (tracks this).
Proof.
  unfold GetAudioTrackInfo, MIN_REDBOOK_TRACKS.
  destruct (size (tracks this) <? 2) eqn:E1; cbn [orb].
  { split; [congruence | lia]. }
  destruct (n <? 1) eqn:E2; cbn [orb].
  { split; [congruence | lia]. }
  destruct (n >? 99) eqn:E3; cbn [orb].
  { split; [congruence | lia]. }
  destruct (n >=? size (tracks this)) eqn:E4.
  { split; [congruence | lia]. }
  split; [lia | discriminate].
Qed.

(** C10: [GetAudioTrackInfo] answers exactly for a table of two entries or
    more and a track number from 1 to 99 that is below the number of
    entries; its answer is read from an entry before the last one; on a
    table that has been built the number of the lead-out entry is refused,
    while [GetAudioTracks] reports the start of that entry. *)
Theorem GetAudioTrackInfo_excludes_lead_out
    (h : Header) (this : Image) (requested_track_num : Z) :
  (GetAudioTrackInfo h this requested_track_num <> None <->
   2 <= size (tracks this)
   /\ 1 <= requested_track_num <= 99
   /\ requested_track_num < size (tracks this))
  /\ (forall answer,
        GetAudioTrackInfo h this requested_track_num = Some answer ->
        exists track,
          nth_error (removelast (tracks this))
                    (Z.to_nat (requested_track_num - 1)) = Some track
          /\ answer = (frames_to_msf h (u32 (Track.start track + 150)),
                       Track.attr track))
  /\ (built (tracks this) ->
      GetAudioTrackInfo h this (Track.number (back (tracks this))) = None
      /\ GetAudioTracks h this
         = Some (Track.number (front (tracks this)),
                 Track.number (nth (List.length (tracks this) - 2)
                                   (tracks this) Track.empty),
                 frames_to_msf h (u32 (Track.start (back (tracks this)) + 150)))).
Proof.
  split; [apply GetAudioTrackInfo_answers|]. split.
  - intros answer H.
    assert (Hs : GetAudioTrackInfo h this requested_track_num <> None) by congruence.
    apply GetAudioTrackInfo_answers in Hs. destruct Hs as (H2 & H1 & Hlt).
    unfold GetAudioTrackInfo, MIN_REDBOOK_TRACKS in H.
    replace (size (tracks this) <? 2) with false in H by lia.
    replace (requested_track_num <? 1) with false in H by lia.
    replace (requested_track_num >? 99) with false in H by lia.
    replace (requested_track_num >=? size (tracks this)) with false in H by lia.
    cbn [orb] in H. injection H as <-.
    unfold size in *.
    assert (Hne : tracks this <> []).
    { destruct (tracks this); [cbn in H2; lia | discriminate]. }
    set (i := Z.to_nat (requested_track_num - 1)).
    assert (Hi : (i < List.length (removelast (tracks this)))%nat).
    { pose proof (f_equal (@List.length _) (tracks_split_last _ Hne)) as E.
      rewrite length_app in E. cbn in E. lia. }
    exists (nth i (tracks this) Track.empty). split; [|reflexivity].
    rewrite (tracks_split_last _ Hne) at 2.
    rewrite app_nth1 by exact Hi.
    apply nth_error_nth'. exact Hi.
  - intros Hb. apply built_complete in Hb.
    destruct Hb as ((Hn & _) & Hlen & _).
    assert (Hne : tracks this <> []).
    { destruct (tracks this); [cbn in Hlen; lia | discriminate]. }
    split.
    + destruct (GetAudioTrackInfo h this (Track.number (back (tracks this))))
        eqn:E; [|reflexivity].
      assert (Hs : GetAudioTrackInfo h this (Track.number (back (tracks this)))
                   <> None) by congruence.
      apply GetAudioTrackInfo_answers in Hs.
      rewrite (numbers_back _ Hn Hne) in Hs. lia.
    + unfold GetAudioTracks, MIN_REDBOOK_TRACKS, size.
      replace (Z.of_nat (List.length (tracks this)) <? 2) with false by lia.
      reflexivity.
Qed.

Lemma GetAudioTrackInfo_excludes_lead_out_witness :
  GetAudioTrackInfo example_header two_file_image 3 = None
  /\ GetAudioTracks example_header two_file_image
     = Some (1, 2, mkTMSF 0 6 50).
Proof.
  destruct (GetAudioTrackInfo_excludes_lead_out example_header two_file_image 3)
    as (_ & _ & H).
  destruct (H two_file_table_built) as [H1 H2].
  split; [exact H1 | exact H2].
Defined.

(** ** Sniffing *)








(** ** Requests outside the disc *)

(** [GetTrack] finds nothing for a sector above the maximum, in a table of
    fewer than two entries, and from the start of the lead-out on; the
    sector is the one that reaches the function. *)
Lemma GetTrack_outside h ts sector :
  u32 sector > MAX_REDBOOK_SECTOR h
  \/ size ts < MIN_REDBOOK_TRACKS
  \/ u32 sector >= Track.start (back ts) ->
  GetTrack h ts sector = None.
Proof.
  unfold GetTrack. cbv zeta. intros [H | [H | H]].
  - replace (u32 sector >? MAX_REDBOOK_SECTOR h) with true by lia. reflexivity.
  - replace (size ts <? MIN_REDBOOK_TRACKS) with true by lia.
    now rewrite orb_true_r.
  - replace (u32 sector >=? Track.start (back ts)) with true by lia.
    now rewrite !orb_true_r.
Qed.

(** A request to read or to play fails with the lookup of its sector. *)
Lemma requests_fail_with_lookup h m this p raw sector len :
  GetTrack h (tracks this) (u32 sector) = None ->
  fst (ReadSector h this raw sector) = false
  /\ fst (PlayAudioSector h m this p sector len) = false.
Proof.
  intros H. split.
  - unfold ReadSector. rewrite H. reflexivity.
  - unfold PlayAudioSector, sanity_check. rewrite H.
    destruct (len =? 0); reflexivity.
Qed.

(** C5: when the sector is above [MAX_REDBOOK_SECTOR], or the table has
    fewer than two entries, or the sector is at or behind the start of
    the last entry, the lead-out, [GetTrack] finds no track, and
    [ReadSector] and [PlayAudioSector] at that sector return [false].
    This holds of every sector of 32 bits, the width in which [GetTrack]
    takes it, and of a wider argument it holds for the sector that
    reaches [GetTrack], the argument as a [uint32_t]. *)
Theorem requests_outside_disc_fail
    (h : Header) (m : Mutex) (this : Image) (p : imagePlayer)
    (raw : bool) (sector len : Z) :
  (0 <= sector < 2 ^ 32 ->
   sector > MAX_REDBOOK_SECTOR h
   \/ size (tracks this) < MIN_REDBOOK_TRACKS
   \/ sector >= Track.start (back (tracks this)) ->
   GetTrack h (tracks this) sector = None
   /\ fst (ReadSector h this raw sector) = false
   /\ fst (PlayAudioSector h m this p sector len) = false)
  /\ (u32 sector > MAX_REDBOOK_SECTOR h
      \/ size (tracks this) < MIN_REDBOOK_TRACKS
      \/ u32 sector >= Track.start (back (tracks this)) ->
      GetTrack h (tracks this) sector = None
      /\ fst (ReadSector h this raw sector) = false
      /\ fst (PlayAudioSector h m this p sector len) = false).
Proof.
  assert (G : u32 sector > MAX_REDBOOK_SECTOR h
              \/ size (tracks this) < MIN_REDBOOK_TRACKS
              \/ u32 sector >= Track.start (back (tracks this)) ->
              GetTrack h (tracks this) sector = None
              /\ fst (ReadSector h this raw sector) = false
              /\ fst (PlayAudioSector h m this p sector len) = false).
  { intros H. split; [now apply GetTrack_outside|].
    apply requests_fail_with_lookup. apply GetTrack_outside.
    now rewrite (u32_small _ (u32_range sector)). }
  split; [|exact G].
  intros Hs H. apply G. now rewrite (u32_small sector Hs).
Qed.

Lemma requests_outside_disc_fail_witness :
  GetTrack example_header (tracks two_file_image) 350 = None
  /\ fst (ReadSector example_header two_file_image true 350) = false
  /\ fst (PlayAudioSector example_header good_mutex two_file_image
                          idle_player 350 10) = false.
Proof.
  destruct (requests_outside_disc_fail example_header good_mutex
              two_file_image idle_player true 350 10) as [H _].
  apply H.
  - lia.
  - right; right. cbn. lia.
Defined.

(** ** Requests in the pregap *)

(** A request in the pregap of its track: the length grows by the distance
    to the start of the track, and the seek goes to [skip]. *)
Lemma pregap_request start len track :
  0 <= start < Track.start track ->
  Track.start track < 2 ^ 31 ->
  0 <= Track.skip track < 2 ^ 32 ->
  relative_start start track = start - Track.start track
  /\ play_length start len track = u64 (len + (Track.start track - start))
  /\ u32 (seek_offset start track) = Track.skip track.
Proof.
  intros Hs Ht Hk.
  assert (Hr : relative_start start track = start - Track.start track).
  { unfold relative_start. rewrite i32_u64. apply i32_small. lia. }
  split; [exact Hr|]. split.
  - unfold play_length. rewrite Hr.
    replace (start - Track.start track <? 0) with true by lia.
    f_equal. lia.
  - unfold seek_offset. rewrite Hr. unfold clamp.
    replace (Z.max 0 (Z.min (start - Track.start track)
                            (i32 (u32 (Track.length track - 1))))) with 0 by lia.
    rewrite Z.mul_0_l, Z.add_0_r, u32_i32, (u32_small _ Hk).
    exact (u32_small _ Hk).
Qed.

(** C1 fails on the code: sector 200 lies in the pregap of the second
    track of [two_file_table], which starts at 250; the request for 100
    sectors is recorded with a length of 150, not of 50.  The seek goes to
    the skip offset of the track, as the claim says. *)
Theorem PlayAudioSector_pregap_lengthens :
  GetTrack example_header two_file_table 200 = Some 1%nat
  /\ fst (PlayAudioSector example_header good_mutex two_file_image idle_player
                          200 100) = true
  /\ totalRedbookFrames
       (snd (PlayAudioSector example_header good_mutex two_file_image idle_player
                             200 100)) = 150
  /\ seek_offset 200 (nth 1 two_file_table Track.empty)
     = Track.skip (nth 1 two_file_table Track.empty).
Proof.
  repeat split; reflexivity.
Qed.

(** ** Placing a track *)

Lemma ceil_div_quot n d :
  0 <= n -> 0 < d ->
  ceil_div n d = if Z.rem n d =? 0 then Z.quot n d else Z.quot n d + 1.
Proof.
  intros Hn Hd.
  rewrite Z.rem_mod_nonneg, Z.quot_div_nonneg by lia.
  rewrite <- (ceil_div_add n d Hd).
  pose proof (Z.div_mod n d ltac:(lia)) as E.
  pose proof (Z.mod_pos_bound n d Hd) as B.
  destruct (n mod d =? 0) eqn:E0.
  - symmetry. apply Z.div_unique with (r := d - 1); lia.
  - symmetry. apply Z.div_unique with (r := n mod d - 1); lia.
Qed.

(** C3 (as amended): when the current track uses another file than the
    previous track, [AddTrack] gets past the test of [prestart], and the
    file of the previous track is at least as long as the skip offset of
    that track, the length of the previous track becomes the bytes of its
    file after its skip offset, divided by its sector size and rounded
    up; the start of the current track grows by the start and the new
    length of the previous track and by [currPregap]; its skip becomes
    [skip] times its sector size; [shift] grows by the start and the new
    length of the previous track; [totalPregap] becomes [currPregap].
    The bytes after the skip offset are fewer than [2^31], the sector
    size of the previous track is positive, and the sums are those of
    the fields: modulo [2^32], and [shift] an [int]. *)
Theorem AddTrack_different_file
    (b : Builder) (prestart currPregap : Z)
    (others : list Track.t) (prev : Track.t) (pf : shared_ptr) :
  b_tracks b = others ++ [prev] ->
  same_file (Track.file prev) (Track.file (b_curr b)) = false ->
  Track.file prev = Some pf ->
  0 < Track.sectorSize prev ->
  (prestart >=? 0) && (prestart >? i32 (Track.start (b_curr b))) = false ->
  0 <= getLength (target pf) - Track.skip prev < 2 ^ 31 ->
  let skip := if prestart >=? 0
              then i32 (u32 (Track.start (b_curr b) - prestart)) else 0 in
  let length' := ceil_div (getLength (target pf) - Track.skip prev)
                          (Track.sectorSize prev) in
  exists ok b',
    AddTrack b prestart currPregap = Some (ok, b')
    /\ nth_error (b_tracks b') (List.length others)
       = Some (Track.set_length prev length')
    /\ Track.start (b_curr b')
       = u32 (Track.start (b_curr b)
              + (Track.start prev + length' + currPregap))
    /\ Track.skip (b_curr b') = u32 (skip * Track.sectorSize (b_curr b))
    /\ b_shift b' = i32 (u32 (b_shift b + (Track.start prev + length')))
    /\ b_totalPregap b' = currPregap.
Proof.
  intros Ht Hsame Hpf Hss Hpre Htmp skip length'.
  unfold AddTrack.
  rewrite Ht, match_snoc, back_snoc, removelast_last, Hpre, Hsame, Hpf.
  replace (Track.sectorSize prev =? 0) with false by lia.
  set (tmp := i32 (u32 (getLength (target pf) - Track.skip prev))).
  assert (Etmp : tmp = getLength (target pf) - Track.skip prev).
  { unfold tmp. rewrite i32_u32. apply i32_small. lia. }
  assert (Hq : 0 <= Z.quot tmp (Track.sectorSize prev) <= tmp).
  { rewrite Z.quot_div_nonneg by lia. split; [apply Z.div_pos; lia|].
    apply Z.div_le_upper_bound; nia. }
  assert (Elen : length' =
                 if Z.rem tmp (Track.sectorSize prev) =? 0
                 then Z.quot tmp (Track.sectorSize prev)
                 else Z.quot tmp (Track.sectorSize prev) + 1).
  { unfold length'. rewrite <- Etmp. apply ceil_div_quot; lia. }
  clearbody tmp length'.
  unfold consistency_checks.
  unfold Track.set_length, Track.set_start, Track.set_skip.
  cbn [Track.sectorSize Track.length Track.start Track.skip
       Track.file Track.number Track.attr Track.mode2].
  destruct (Z.rem tmp (Track.sectorSize prev) =? 0); cbn [negb];
    cbn [Track.sectorSize Track.length Track.start Track.skip
         Track.file Track.number Track.attr Track.mode2];
    rewrite ?(u32_small (Z.quot tmp (Track.sectorSize prev))) by lia;
    rewrite ?(u32_small (Z.quot tmp (Track.sectorSize prev) + 1)) by lia;
    rewrite <- Elen;
    destruct (_ || _); eexists _, _; (split; [reflexivity|]);
    cbn [b_tracks b_curr b_shift b_totalPregap Track.start Track.skip];
    rewrite nth_error_app2, Nat.sub_diag by lia; cbn [nth_error]; auto.
Qed.

Lemma AddTrack_different_file_witness :
  exists ok b',
    AddTrack second_file_builder (-1) 150 = Some (ok, b')
    /\ nth_error (b_tracks b') 0
       = Some (Track.mk (Some (mkPtr 0 (wav 235201))) 0 101 0 2352 1 0 false)
    /\ Track.start (b_curr b') = 251
    /\ Track.skip (b_curr b') = 0
    /\ b_shift b' = 101
    /\ b_totalPregap b' = 150.
Proof.
  apply (AddTrack_different_file second_file_builder (-1) 150 []
           (Track.mk (Some (mkPtr 0 (wav 235201))) 0 0 0 2352 1 0 false)
           (mkPtr 0 (wav 235201)));
    try reflexivity; cbn; lia.
Defined.

(** C3 (as stated) fails when the file of the previous track ends before
    the skip offset of that track.  [short_file_cue] brings [LoadCueSheet]
    to [short_file_builder]: the second track has a skip offset of 7056
    bytes in a file of 1704 bytes.  When the third track, which is in
    another file, is added, -5352 bytes divided by 2352 and rounded up
    are -2 sectors, but the division of the code truncates to -2 and the
    test of the remainder adds one: the length becomes 4294967295, which
    is -1 in 32 bits.  The cue sheet loads, with the third track starting
    at sector 2, before the second. *)
Lemma AddTrack_short_file_not_rounded_up :
  (exists st,
      cue_lines (cue_start EmptyString) short_file_cue = Some (true, st)
      /\ c_build st = short_file_builder
      /\ c_prestart st = -1 /\ c_currPregap st = 0)
  /\ same_file (Track.file (back (b_tracks short_file_builder)))
               (Track.file (b_curr short_file_builder)) = false
  /\ getLength short_bin - Track.skip (back (b_tracks short_file_builder))
     = -5352
  /\ ceil_div (-5352) (Track.sectorSize (back (b_tracks short_file_builder)))
     = -2
  /\ u32 (-2) = 4294967294
  /\ (exists b',
        AddTrack short_file_builder (-1) 0 = Some (true, b')
        /\ map Track.length (b_tracks b') = [3; 4294967295; 0])
  /\ (exists st,
        LoadCueSheet EmptyString true short_file_cue = Some (true, st)
        /\ cue_tracks st = short_file_table).
Proof.
  split.
  { eexists. split; [vm_compute; reflexivity|]. repeat split. }
  split; [reflexivity|]. split; [vm_compute; reflexivity|].
  split; [reflexivity|]. split; [reflexivity|]. split.
  - eexists. split; [vm_compute; reflexivity | reflexivity].
  - eexists. split; [vm_compute; reflexivity | reflexivity].
Qed.

(** ** The outcome of [AddTrack] *)

Lemma nth_after (others : list Track.t) x rest :
  nth (List.length others) (others ++ x :: rest) Track.empty = x.
Proof.
  rewrite app_nth2, Nat.sub_diag by lia. reflexivity.
Qed.

Lemma AddTrack_outcome b prestart currPregap ok b' :
  AddTrack b prestart currPregap = Some (ok, b') ->
  (ok = false <-> prestart_after_start b prestart \/ inconsistent b b')
  /\ (ok = true -> appended b b')
  /\ (ok = false -> not_appended b b').
Proof.
  intros H.
  destruct (b_tracks b) as [|t0 l0] eqn:Ht.
  - unfold appended, not_appended, inconsistent, prestart_after_start.
    rewrite Ht. unfold AddTrack in H. rewrite Ht in H.
    destruct ((prestart >=? 0) && _) eqn:Ep.
    + injection H as <- <-. repeat split; auto; try discriminate.
      left. lia.
    + destruct (Track.number (b_curr b) =? 1); [|discriminate].
      injection H as <- <-. cbn. repeat split; auto; try discriminate.
      intros [? | [? _]]; [lia | congruence].
  - assert (Hs : b_tracks b = removelast (t0 :: l0) ++ [back (t0 :: l0)]).
    { rewrite Ht. apply tracks_split_last. discriminate. }
    set (others := removelast (t0 :: l0)) in *.
    set (prev := back (t0 :: l0)) in *.
    assert (Hl : (List.length (b_tracks b) - 1)%nat = List.length others).
    { rewrite Hs, length_app. cbn. lia. }
    assert (Hr : removelast (b_tracks b) = others).
    { rewrite Hs. apply removelast_last. }
    unfold appended, not_appended, inconsistent, prestart_after_start, previous.
    rewrite Hl, Hr, Ht.
    destruct (AddTrack_subsequent _ _ _ _ _ _ _ Hs H)
      as [(Ep & -> & ->) | (Ep & prev' & curr' & sh & tp & Hc & _)].
    + repeat split; auto; try discriminate.
      * left. lia.
      * intros _. rewrite Hs, nth_after. reflexivity.
    + unfold consistency_checks in Hc.
      destruct (_ || _) eqn:Ec in Hc; injection Hc as <- <-;
        cbn [b_tracks b_curr]; rewrite !nth_after;
        repeat split; auto; try discriminate.
      * intros _. right. split; [discriminate | lia].
      * intros [? | [_ ?]]; lia.
Qed.

(** ** A failed [AddTrack] and the load *)

Lemma cue_lines_app pre : forall st st' rest,
  cue_lines st pre = Some (true, st') ->
  cue_lines st (pre ++ rest) = cue_lines st' rest.
Proof.
  induction pre as [|line pre IH]; intros st st' rest; cbn.
  - intros E. injection E as <-. reflexivity.
  - destruct (cue_line st line) as [[[|] st1]|]; try discriminate.
    apply IH.
Qed.

Lemma cue_line_rejects st line b' :
  adds_track line = true ->
  c_canAddTrack st = true ->
  AddTrack (c_build st) (c_prestart st) (c_currPregap st) = Some (false, b') ->
  exists st', cue_line st line = Some (false, st').
Proof.
  intros Hl Hc Ha.
  assert (Hp : add_pending st = Some (false, with_build st b')).
  { unfold add_pending. now rewrite Hc, Ha. }
  destruct line; try discriminate; cbn; rewrite Hp.
  - destruct (apply_type _ _); eexists; reflexivity.
  - destruct (open_error obj); eexists; reflexivity.
Qed.

Lemma LoadCueSheet_rejects_line mcn pre line post st b' :
  cue_lines (cue_start mcn) pre = Some (true, st) ->
  adds_track line = true ->
  c_canAddTrack st = true ->
  AddTrack (c_build st) (c_prestart st) (c_currPregap st) = Some (false, b') ->
  exists st', LoadCueSheet mcn true (pre ++ line :: post) = Some (false, st').
Proof.
  intros Hpre Hl Hc Ha.
  destruct (cue_line_rejects st line b' Hl Hc Ha) as [st' E].
  exists st'. unfold LoadCueSheet. cbn [negb].
  rewrite (cue_lines_app pre _ _ _ Hpre). cbn. now rewrite E.
Qed.

Lemma LoadCueSheet_rejects_last mcn lines st b' :
  cue_lines (cue_start mcn) lines = Some (true, st) ->
  AddTrack (c_build st) (c_prestart st) (c_currPregap st) = Some (false, b') ->
  exists st', LoadCueSheet mcn true lines = Some (false, st').
Proof.
  intros Hl Ha. unfold LoadCueSheet. cbn [negb]. rewrite Hl.
  unfold cue_finish. rewrite Ha. eexists; reflexivity.
Qed.

Lemma LoadCueSheet_rejects_lead_out mcn lines st b1 b2 :
  cue_lines (cue_start mcn) lines = Some (true, st) ->
  AddTrack (c_build st) (c_prestart st) (c_currPregap st) = Some (true, b1) ->
  AddTrack (c_build (with_track (with_build st b1) (lead_out (b_curr b1))))
           (-1) 0 = Some (false, b2) ->
  exists st', LoadCueSheet mcn true lines = Some (false, st').
Proof.
  intros Hl Ha1 Ha2. unfold LoadCueSheet. cbn [negb]. rewrite Hl.
  unfold cue_finish. rewrite Ha1.
  change (cue_track (with_build st b1)) with (b_curr b1).
  rewrite Ha2. eexists; reflexivity.
Qed.

Lemma LoadIsoFile_false a s ts : LoadIsoFile a s = (false, ts) -> ts = [].
Proof.
  unfold LoadIsoFile.
  destruct (failbit s); [intros E; now injection E|].
  destruct (CanReadPVD s _ false) as [s1 [|]]; [discriminate|].
  destruct (CanReadPVD s1 _ false) as [s2 [|]]; [discriminate|].
  destruct (CanReadPVD s2 _ true) as [s3 [|]]; [discriminate|].
  destruct (CanReadPVD s3 _ true) as [s4 [|]]; [discriminate|].
  intros E; now injection E.
Qed.

Lemma SetDevice_fallback mcn f st :
  LoadCueSheet mcn (text_opens f) (text_lines f) = Some (false, st) ->
  SetDevice mcn f = Some (LoadIsoFile (binary_addr f) (binary f))
  /\ (forall ts, SetDevice mcn f = Some (false, ts) -> ts = [])
  /\ (forall ts, SetDevice mcn f = Some (true, ts) ->
        exists s' g,
          In g probes /\ ts = iso_table (binary_addr f) s' (fst g) (snd g)).
Proof.
  intros H. unfold SetDevice. rewrite H. split; [reflexivity|]. split.
  - intros ts E. injection E as E. exact (LoadIsoFile_false _ _ _ E).
  - intros ts E. injection E as E. apply LoadIsoFile_table in E.
    destruct E as (s' & ss & m2 & Hin & ->). now exists s', (ss, m2).
Qed.

(** C4 (as amended): a call of [AddTrack] that returns has returned
    [false] exactly when [prestart] is present and greater than the start
    of the track or, for a track that is not the first, one of the three
    consistency checks fails on the placed values; it has then appended
    nothing, and otherwise it has appended the track.  When a call made by
    [LoadCueSheet] returns [false] (at a [TRACK] or [FILE] line, for the
    last track or for the lead-out), [LoadCueSheet] returns [false].
    [SetDevice] then takes the result of [LoadIsoFile] on the same path:
    the table is empty when that fails too and is the table of the ISO
    image otherwise, never a part of the table of the cue sheet. *)
Theorem AddTrack_failure_and_load :
  (forall b prestart currPregap ok b',
      AddTrack b prestart currPregap = Some (ok, b') ->
      (ok = false <-> prestart_after_start b prestart \/ inconsistent b b')
      /\ (ok = true -> appended b b')
      /\ (ok = false -> not_appended b b'))
  /\ (forall mcn pre line post st b',
        cue_lines (cue_start mcn) pre = Some (true, st) ->
        adds_track line = true ->
        c_canAddTrack st = true ->
        AddTrack (c_build st) (c_prestart st) (c_currPregap st)
        = Some (false, b') ->
        exists st',
          LoadCueSheet mcn true (pre ++ line :: post) = Some (false, st'))
  /\ (forall mcn lines st b',
        cue_lines (cue_start mcn) lines = Some (true, st) ->
        AddTrack (c_build st) (c_prestart st) (c_currPregap st)
        = Some (false, b') ->
        exists st', LoadCueSheet mcn true lines = Some (false, st'))
  /\ (forall mcn lines st b1 b2,
        cue_lines (cue_start mcn) lines = Some (true, st) ->
        AddTrack (c_build st) (c_prestart st) (c_currPregap st)
        = Some (true, b1) ->
        AddTrack (c_build (with_track (with_build st b1) (lead_out (b_curr b1))))
                 (-1) 0 = Some (false, b2) ->
        exists st', LoadCueSheet mcn true lines = Some (false, st'))
  /\ (forall mcn f st,
        LoadCueSheet mcn (text_opens f) (text_lines f) = Some (false, st) ->
        SetDevice mcn f = Some (LoadIsoFile (binary_addr f) (binary f))
        /\ (forall ts, SetDevice mcn f = Some (false, ts) -> ts = [])
        /\ (forall ts, SetDevice mcn f = Some (true, ts) ->
              exists s' g,
                In g probes
                /\ ts = iso_table (binary_addr f) s' (fst g) (snd g))).
Proof.
  split; [exact AddTrack_outcome|].
  split; [exact LoadCueSheet_rejects_line|].
  split; [exact LoadCueSheet_rejects_last|].
  split; [exact LoadCueSheet_rejects_lead_out | exact SetDevice_fallback].
Qed.

Lemma AddTrack_failure_and_load_witness :
  (exists st',
      LoadCueSheet EmptyString true
        ([TRACK 1 AUDIO; TRACK 3 AUDIO] ++ TRACK 4 AUDIO :: [TooLong])
      = Some (false, st'))
  /\ not_appended
       (mkBuilder [Track.mk None 0 0 0 2352 1 0 false]
                  (Track.mk None 0 0 0 2352 3 0 false) 0 0)
       (mkBuilder [Track.mk None 0 0 0 2352 1 0 false]
                  (Track.mk None 0 0 0 2352 3 0 false) 0 0).
Proof.
  destruct AddTrack_failure_and_load as (HA & HB & _).
  split.
  - apply (HB EmptyString [TRACK 1 AUDIO; TRACK 3 AUDIO] (TRACK 4 AUDIO) [TooLong]
              (mkCue (mkBuilder [Track.mk None 0 0 0 2352 1 0 false]
                                (Track.mk None 0 0 0 2352 3 0 false) 0 0)
                     0 (-1) true EmptyString 0)
              (mkBuilder [Track.mk None 0 0 0 2352 1 0 false]
                         (Track.mk None 0 0 0 2352 3 0 false) 0 0));
      reflexivity.
  - apply (HA (mkBuilder [Track.mk None 0 0 0 2352 1 0 false]
                         (Track.mk None 0 0 0 2352 3 0 false) 0 0)
              (-1) 0 false); reflexivity.
Defined.

(** C4 (as stated) fails: in [cue_and_iso] the pending track 3 follows
    track 1, [AddTrack] returns [false] and so does [LoadCueSheet], but
    the file is also an ISO image and [SetDevice] loads it. *)
Lemma AddTrack_failure_image_loaded :
  match cue_lines (cue_start EmptyString) [TRACK 1 AUDIO; TRACK 3 AUDIO] with
  | Some (true, st) =>
      c_canAddTrack st = true
      /\ option_map fst (AddTrack (c_build st) (c_prestart st) (c_currPregap st))
         = Some false
  | _ => False
  end
  /\ option_map fst (LoadCueSheet EmptyString (text_opens cue_and_iso)
                                  (text_lines cue_and_iso)) = Some false
  /\ option_map fst (SetDevice EmptyString cue_and_iso) = Some true
  /\ option_map (fun r => List.length (snd r)) (SetDevice EmptyString cue_and_iso)
     = Some 2%nat.
Proof.
  split; [cbn; split; reflexivity|].
  split; [reflexivity|].
  split; vm_compute; reflexivity.
Qed.

(** * Further properties of the code *)

(** ** What [GetTrack] returns *)

Lemma last_cons_default {A} (a : A) l d : last (a :: l) d = last l a.
Proof.
  revert a d. induction l as [|b l IH]; intros a d; [reflexivity|].
  change (last (a :: b :: l) d) with (last (b :: l) d).
  rewrite (IH b d), (IH b a). reflexivity.
Qed.

Lemma GetTrack_walk_sound ts : forall idx lower_bound sector j,
  GetTrack_walk ts idx lower_bound sector = Some j ->
  exists pre t post,
    ts = pre ++ t :: post
    /\ j = (idx + List.length pre)%nat
    /\ lower_bound_after pre lower_bound <= sector < upper_bound t.
Proof.
  induction ts as [|t rest IH]; intros idx lb s j; cbn [GetTrack_walk];
    [discriminate|].
  destruct ((lb <=? s) && (s <? u32 (Track.start t + Track.length t))) eqn:E.
  - intros H. injection H as <-. exists [], t, rest.
    unfold lower_bound_after, upper_bound. cbn. repeat split; lia.
  - intros H. apply IH in H. destruct H as (pre & t' & post & -> & -> & Hr).
    exists (t :: pre), t', post. split; [reflexivity|].
    split; [cbn [List.length]; lia|].
    unfold lower_bound_after in *. cbn [map].
    rewrite last_cons_default. exact Hr.
Qed.

(** A track that [GetTrack] finds splits the table at its place. *)
Lemma GetTrack_found h ts sector i :
  GetTrack h ts sector = Some i ->
  exists pre t post,
    ts = pre ++ t :: post
    /\ i = List.length pre
    /\ lower_bound_after pre (Track.start (front ts)) <= u32 sector
                                                       < upper_bound t.
Proof.
  unfold GetTrack. cbv zeta.
  destruct (_ || _); [discriminate|].
  intros H. apply GetTrack_walk_sound in H.
  destruct H as (pre & t & post & E & -> & Hr).
  exists pre, t, post. auto.
Qed.

(** X1: the track that [GetTrack] returns is an entry of the table whose
    range holds the sector: the sector is at or above the upper bound of
    the entry before it (the start of the first track for the first
    entry) and below its own upper bound; the sector is no greater than
    [MAX_REDBOOK_SECTOR] and lies before the start of the last entry, and
    the table has two entries at least.  The sector is the one that
    reaches the function, its argument as a [uint32_t]. *)
Theorem GetTrack_sound (h : Header) (ts : list Track.t) (sector : Z) (i : nat) :
  GetTrack h ts sector = Some i ->
  u32 sector <= MAX_REDBOOK_SECTOR h
  /\ 2 <= size ts
  /\ u32 sector < Track.start (back ts)
  /\ exists pre t post,
      ts = pre ++ t :: post
      /\ i = List.length pre
      /\ lower_bound_after pre (Track.start (front ts)) <= u32 sector
                                                         < upper_bound t.
Proof.
  unfold GetTrack, MIN_REDBOOK_TRACKS. cbv zeta.
  destruct (u32 sector >? MAX_REDBOOK_SECTOR h) eqn:E1; [discriminate|].
  destruct (size ts <? 2) eqn:E2; [discriminate|].
  destruct (u32 sector >=? Track.start (back ts)) eqn:E3; [discriminate|].
  cbn [orb]. intros H. apply GetTrack_walk_sound in H.
  destruct H as (pre & t & post & E & -> & Hr).
  repeat split; try lia. exists pre, t, post. auto.
Qed.

Lemma GetTrack_sound_witness :
  exists pre t post,
    two_file_table = pre ++ t :: post
    /\ 1%nat = List.length pre
    /\ lower_bound_after pre (Track.start (front two_file_table)) <= 200
                                                                  < upper_bound t.
Proof.
  apply (GetTrack_sound example_header two_file_table 200 1). reflexivity.
Defined.

(** ** The lead-out *)

Lemma u32_add_u32_r a b : u32 (a + u32 b) = u32 (a + b).
Proof. unfold u32. apply Zplus_mod_idemp_r. Qed.

Lemma u32_add_i32_r a b : u32 (a + i32 b) = u32 (a + b).
Proof.
  unfold u32, i32.
  replace (a + ((b + 2 ^ 31) mod 2 ^ 32 - 2 ^ 31))
    with (a - 2 ^ 31 + (b + 2 ^ 31) mod 2 ^ 32) by lia.
  rewrite Zplus_mod_idemp_r. f_equal. lia.
Qed.

Lemma u32_idem a : u32 (u32 a) = u32 a.
Proof. apply u32_small, u32_range. Qed.

(** The lead-out that [LoadCueSheet] adds starts where the last track
    ends. *)
Lemma AddTrack_lead_out b others prev b' :
  b_tracks b = others ++ [prev] ->
  Track.length prev = 0 ->
  Track.start (b_curr b) = 0 ->
  Track.length (b_curr b) = 0 ->
  AddTrack b (-1) 0 = Some (true, b') ->
  sealed (b_tracks b').
Proof.
  intros Ht Hpl Hcs Hcl. unfold AddTrack.
  rewrite Ht, match_snoc, back_snoc, removelast_last.
  cbn [Z.geb Z.compare andb].
  destruct (same_file (Track.file prev) (Track.file (b_curr b))).
  - rewrite Hpl. cbn [Z.eqb].
    intros H. injection H as H. apply consistency_checks_true in H.
    destruct H as (-> & _ & _). cbn [b_tracks].
    eexists others, _, _. split; [reflexivity|]. split.
    + unfold upper_bound. cbn. rewrite Hcs.
      rewrite u32_add_i32_r, u32_add_u32_r. f_equal. lia.
    + cbn. exact Hcl.
  - destruct (Track.file prev) as [pf|]; [|discriminate].
    destruct (Track.sectorSize prev =? 0); [discriminate|].
    intros H. injection H as H. apply consistency_checks_true in H.
    destruct H as (-> & _ & _). cbn [b_tracks].
    eexists others, _, _. split; [reflexivity|]. split.
    + unfold upper_bound. cbn. rewrite Hcs. f_equal. lia.
    + cbn. exact Hcl.
Qed.

Lemma cue_finish_sealed st st' :
  cue_inv st -> cue_finish st = Some (true, st') -> sealed (cue_tracks st').
Proof.
  intros [Ht Hl]. unfold cue_finish.
  destruct (AddTrack (c_build st) (c_prestart st) (c_currPregap st))
    as [[[|] b]|] eqn:E1; try discriminate.
  destruct (AddTrack_inv _ _ _ _ Ht Hl E1) as (H1 & H2 & H3 & H4).
  match goal with
  | |- match AddTrack ?bb _ _ with _ => _ end = _ -> _ =>
      destruct (AddTrack bb (-1) 0) as [[ok b2]|] eqn:E2; [|discriminate]
  end.
  intros H. injection H as -> <-.
  assert (Hne : b_tracks b <> []).
  { destruct (b_tracks b); [cbn in H4; lia | discriminate]. }
  apply (AddTrack_lead_out _ (removelast (b_tracks b)) (back (b_tracks b))) in E2.
  - exact E2.
  - cbn. apply tracks_split_last. exact Hne.
  - rewrite H3. exact H2.
  - reflexivity.
  - reflexivity.
Qed.

Lemma built_sealed ts : built ts -> sealed ts.
Proof.
  intros [(mcn & lines & st & H & <-) | (a & s & H)].
  - unfold LoadCueSheet in H. cbn [negb] in H.
    destruct (cue_lines (cue_start mcn) lines) as [[[|] st1]|] eqn:E;
      try discriminate.
    apply (cue_finish_sealed st1); [|exact H].
    exact (cue_lines_inv _ _ _ (cue_start_inv mcn) E).
  - apply LoadIsoFile_table in H. destruct H as (s' & ss & m2 & _ & ->).
    unfold iso_table. eexists [], _, _. split; [reflexivity|].
    unfold upper_bound. cbn. split; [|reflexivity].
    rewrite u32_idem. reflexivity.
Qed.

(** X2: on a table that has been built the last entry, the lead-out,
    starts where the entry before it ends and has the length 0, and
    [GetTrack] never returns it: the track it finds is one of the entries
    before the last. *)
Theorem GetTrack_never_lead_out (h : Header) (ts : list Track.t) :
  built ts ->
  sealed ts
  /\ forall sector i,
       GetTrack h ts sector = Some i ->
       exists track,
         nth_error (removelast ts) i = Some track
         /\ deref ts (GetTrack h ts sector) = Some track.
Proof.
  intros Hb. pose proof (built_sealed ts Hb) as Hsealed.
  split; [exact Hsealed|].
  destruct Hsealed as (others & prev & lo & E & Hs & Hl).
  intros sector i H.
  rewrite H. cbn [deref].
  apply GetTrack_found in H.
  destruct H as (pre & t & post & E' & -> & Hr).
  assert (Hpost : post <> []).
  { intros ->. rewrite E in E'.
    change (others ++ [prev; lo]) with (others ++ [prev] ++ [lo]) in E'.
    rewrite app_assoc in E'. apply app_inj_tail in E'. destruct E' as [<- <-].
    unfold lower_bound_after in Hr. rewrite map_app in Hr. cbn [map] in Hr.
    rewrite last_last in Hr.
    unfold upper_bound in Hr at 2. rewrite Hl, Z.add_0_r, Hs in Hr.
    unfold upper_bound in Hr. rewrite u32_idem in Hr. lia. }
  assert (Er : removelast ts = pre ++ t :: removelast post).
  { rewrite E'. rewrite removelast_app by discriminate.
    cbn [removelast]. destruct post; [congruence | reflexivity]. }
  exists t. split.
  - rewrite Er. rewrite nth_error_app2, Nat.sub_diag by lia. reflexivity.
  - rewrite E'. rewrite nth_error_app2, Nat.sub_diag by lia. reflexivity.
Qed.

Lemma GetTrack_never_lead_out_witness :
  sealed two_file_table
  /\ exists track,
       nth_error (removelast two_file_table) 1 = Some track
       /\ deref two_file_table (GetTrack example_header two_file_table 200)
          = Some track.
Proof.
  destruct (GetTrack_never_lead_out example_header two_file_table
              two_file_table_built) as [H1 H2].
  split; [exact H1|].
  apply (H2 200 1%nat). reflexivity.
Defined.

(** ** The flags after a request *)

(** X3: whatever path [PlayAudioSector] takes, its result is the playing
    flag it leaves behind and also the state of the output; the paused
    flag is cleared; a request that fails changes no field of the session
    unless the failure is that of the final unlock; a request that
    succeeds records its start sector and a played count of 0. *)
Theorem PlayAudioSector_result_is_playing
    (h : Header) (m : Mutex) (this : Image) (p : imagePlayer) (start len : Z) :
  isPlaying (snd (PlayAudioSector h m this p start len))
  = fst (PlayAudioSector h m this p start len)
  /\ output_enabled (snd (PlayAudioSector h m this p start len))
     = fst (PlayAudioSector h m this p start len)
  /\ isPaused (snd (PlayAudioSector h m this p start len)) = false
  /\ (fst (PlayAudioSector h m this p start len) = false ->
      unlocks m = true ->
      session (snd (PlayAudioSector h m this p start len)) = session p)
  /\ (fst (PlayAudioSector h m this p start len) = true ->
      startSector (snd (PlayAudioSector h m this p start len)) = start
      /\ playedTrackFrames (snd (PlayAudioSector h m this p start len)) = 0).
Proof.
  pose proof (StopAudio_flags p) as (S1 & S2 & S3 & S4).
  unfold PlayAudioSector.
  destruct (sanity_check h this p start len) as [[[track f] c]|]; cbn [fst snd].
  2:{ repeat split; auto; discriminate. }
  destruct (seek (target f) (u32 (seek_offset start track))); cbn [negb fst snd].
  2:{ repeat split; auto; discriminate. }
  destruct (locks m); cbn [negb fst snd].
  2:{ repeat split; auto; discriminate. }
  destruct (unlocks m); cbn [negb fst snd].
  - repeat split; auto; discriminate.
  - repeat split; auto; discriminate.
Qed.

Lemma PlayAudioSector_result_is_playing_witness :
  session (snd (PlayAudioSector example_header (mkMutex false true)
                                two_file_image busy_player 0 10))
  = session busy_player.
Proof.
  destruct (PlayAudioSector_result_is_playing example_header
              (mkMutex false true) two_file_image busy_player 0 10)
    as (_ & _ & _ & H & _).
  apply H; reflexivity.
Defined.

(** ** Pausing *)

(** X4: [PauseAudio] returns [true] and changes neither the playing flag
    nor the session; pausing and then resuming a player that was not paused
    and whose channel was enabled gives the player back as it was; and a
    resume enables the channel whether or not anything is playing. *)
Theorem PauseAudio_resume (p : imagePlayer) :
  (forall resume,
      fst (PauseAudio p resume) = true
      /\ isPlaying (snd (PauseAudio p resume)) = isPlaying p
      /\ isPaused (snd (PauseAudio p resume)) = negb resume
      /\ session (snd (PauseAudio p resume)) = session p)
  /\ (isPaused p = false ->
      (forall c, channel p = Some c -> enabled c = true) ->
      snd (PauseAudio (snd (PauseAudio p false)) true) = p)
  /\ (forall c, channel p = Some c ->
        output_enabled (snd (PauseAudio (snd (StopAudio p)) true)) = true
        /\ isPlaying (snd (PauseAudio (snd (StopAudio p)) true)) = false).
Proof.
  split; [|split].
  - intros resume. repeat split.
  - intros Hp Hc. destruct p as [tf [[en fq]|] ? ? ? ? ? ? ? pa]; cbn in *.
    + pose proof (Hc _ eq_refl) as He. cbn in He. subst pa en. reflexivity.
    + subst pa. reflexivity.
  - intros c Hc. unfold output_enabled. cbn. rewrite Hc. cbn. auto.
Qed.

Lemma PauseAudio_resume_witness :
  snd (PauseAudio (snd (PauseAudio busy_player false)) true) = busy_player
  /\ output_enabled (snd (PauseAudio (snd (StopAudio busy_player)) true)) = true.
Proof.
  destruct (PauseAudio_resume busy_player) as (_ & H2 & H3).
  split.
  - apply H2; [reflexivity|]. intros c E. injection E as <-. reflexivity.
  - apply (H3 (mkChannel true 44100) eq_refl).
Defined.

(** ** A sniffed image *)

Lemma iso_table_entries a s sectorSize mode2 track :
  In track (iso_table a s sectorSize mode2) ->
  Track.attr track = 0x40 \/ Track.file track = None.
Proof.
  unfold iso_table. cbn. intros [<- | [<- | []]]; cbn; auto.
Qed.

(** X5: the table of a sniffed ISO file has a data track, and no request
    to play starts a session on it, whatever the sector and the length. *)
Theorem LoadIsoFile_never_plays
    (h : Header) (m : Mutex) (a : nat) (s : ifstream) (ts : list Track.t)
    (catalog : string) (unit : Z) (p : imagePlayer) (start len : Z) :
  LoadIsoFile a s = (true, ts) ->
  HasDataTrack (mkImage ts catalog unit) = true
  /\ PlayAudioSector h m (mkImage ts catalog unit) p start len
     = (false, snd (StopAudio p)).
Proof.
  intros H. apply LoadIsoFile_table in H. destruct H as (s' & ss & m2 & _ & ->).
  split; [reflexivity|].
  unfold PlayAudioSector.
  rewrite sanity_check_fails; [reflexivity|].
  cbn [tracks].
  destruct (GetTrack h (iso_table a s' ss m2) (u32 start)) as [i|] eqn:E;
    [|now right; left].
  right; right. cbn [deref].
  destruct (nth_error (iso_table a s' ss m2) i) as [track|] eqn:En.
  - exists track. split; [reflexivity|].
    apply nth_error_In in En. exact (iso_table_entries _ _ _ _ _ En).
  - apply GetTrack_found in E.
    destruct E as (pre & t & post & E & -> & _).
    rewrite E, nth_error_app2, Nat.sub_diag in En by lia. discriminate.
Qed.

Lemma cooked_iso_loads :
  LoadIsoFile 0 cooked_iso = (true, tracks cooked_iso_image).
Proof.
  unfold cooked_iso_image. cbn [tracks].
  rewrite (surjective_pairing (LoadIsoFile 0 cooked_iso)) at 1.
  replace (fst (LoadIsoFile 0 cooked_iso)) with true
    by (vm_compute; reflexivity).
  reflexivity.
Defined.

Lemma LoadIsoFile_never_plays_witness :
  PlayAudioSector example_header good_mutex cooked_iso_image idle_player 0 10
  = (false, snd (StopAudio idle_player)).
Proof.
  apply (LoadIsoFile_never_plays example_header good_mutex 0 cooked_iso
           (tracks cooked_iso_image) EmptyString 0 idle_player 0 10
           cooked_iso_loads).
Defined.

(** ** The drive after [SetDevice] *)

Lemma numbers_nth ts i :
  numbers_1_to_N ts -> (i < List.length ts)%nat ->
  Track.number (nth i ts Track.empty) = Z.of_nat (S i).
Proof.
  intros Hn Hi. unfold numbers_1_to_N in Hn.
  rewrite <- (map_nth Track.number ts Track.empty i), Hn.
  rewrite (nth_indep _ (Track.number Track.empty) (Z.of_nat 0))
    by (rewrite length_map, length_seq; exact Hi).
  rewrite map_nth, seq_nth by exact Hi. reflexivity.
Qed.

Lemma SetDevice_true_built mcn f ts :
  SetDevice mcn f = Some (true, ts) -> built ts.
Proof.
  unfold SetDevice.
  destruct (LoadCueSheet mcn (text_opens f) (text_lines f))
    as [[[|] st]|] eqn:E; [| |discriminate].
  - intros H. injection H as <-. left.
    exists mcn, (text_lines f), st. split; [|reflexivity].
    destruct (text_opens f); [exact E | discriminate].
  - intros H. injection H as H. right. now exists (binary_addr f), (binary f).
Qed.

(** X6: when [SetDevice] fails the drive has no media: the table is
    empty, the inquiries [GetAudioTracks] and [GetAudioTrackInfo] fail,
    [GetTrack] finds no sector, no sector can be read or played, and there
    is no data track. *)
Theorem SetDevice_failure_no_media
    (h : Header) (m : Mutex) (mcn : string) (f : ImageFile)
    (ts : list Track.t) (unit : Z) (p : imagePlayer) :
  SetDevice mcn f = Some (false, ts) ->
  ts = []
  /\ GetAudioTracks h (mkImage ts mcn unit) = None
  /\ HasDataTrack (mkImage ts mcn unit) = false
  /\ (forall n, GetAudioTrackInfo h (mkImage ts mcn unit) n = None)
  /\ (forall sector, GetTrack h ts sector = None)
  /\ (forall raw sector, fst (ReadSector h (mkImage ts mcn unit) raw sector) = false)
  /\ (forall start len,
        fst (PlayAudioSector h m (mkImage ts mcn unit) p start len) = false).
Proof.
  intros H.
  assert (E : ts = []).
  { unfold SetDevice in H.
    destruct (LoadCueSheet mcn (text_opens f) (text_lines f))
      as [[[|] st]|]; try discriminate.
    injection H as H. exact (LoadIsoFile_false _ _ _ H). }
  subst ts. split; [reflexivity|].
  assert (Hg : forall sector, GetTrack h [] sector = None).
  { intros sector. apply GetTrack_outside. right; left. reflexivity. }
  repeat split; auto.
  - intros raw sector. unfold ReadSector. cbn [tracks]. now rewrite Hg.
  - intros start len. unfold PlayAudioSector.
    rewrite sanity_check_fails; [reflexivity|]. right; left. apply Hg.
Qed.

Lemma SetDevice_failure_no_media_witness :
  GetAudioTracks example_header (mkImage [] EmptyString 0) = None
  /\ fst (ReadSector example_header (mkImage [] EmptyString 0) false 0) = false.
Proof.
  destruct (SetDevice_failure_no_media example_header good_mutex EmptyString
              (mkImageFile false [] (mkStream [] true) 0) [] 0 idle_player
              eq_refl) as (_ & H1 & _ & _ & _ & H2 & _).
  split; [exact H1 | exact (H2 false 0)].
Defined.

(** X7: after a successful [SetDevice], [GetAudioTracks] reports 1 as the
    first track and the number of entries less one as the last track, and
    for every number from 1 to that last track and no greater than 99
    [GetAudioTrackInfo] returns the start time and the attribute of the
    entry that carries this number. *)
Theorem SetDevice_success_inquiry
    (h : Header) (mcn : string) (f : ImageFile) (ts : list Track.t) (unit : Z) :
  SetDevice mcn f = Some (true, ts) ->
  GetAudioTracks h (mkImage ts mcn unit)
  = Some (1, size ts - 1,
          frames_to_msf h (u32 (Track.start (back ts) + 150)))
  /\ forall n, 1 <= n <= size ts - 1 -> n <= 99 ->
       exists track,
         nth_error ts (Z.to_nat (n - 1)) = Some track
         /\ Track.number track = n
         /\ GetAudioTrackInfo h (mkImage ts mcn unit) n
            = Some (frames_to_msf h (u32 (Track.start track + 150)),
                    Track.attr track).
Proof.
  intros H. apply SetDevice_true_built, built_complete in H.
  destruct H as ((Hn & _) & Hlen & _).
  split.
  - unfold GetAudioTracks, MIN_REDBOOK_TRACKS, size. cbn [tracks].
    replace (Z.of_nat (List.length ts) <? 2) with false by lia.
    assert (Ef : front ts = nth 0 ts Track.empty).
    { destruct ts; [cbn in Hlen; lia | reflexivity]. }
    rewrite Ef, !numbers_nth by (auto; lia).
    repeat f_equal; lia.
  - intros n H1 H99. unfold size in H1.
    set (i := Z.to_nat (n - 1)).
    assert (Hi : (i < List.length ts)%nat) by lia.
    exists (nth i ts Track.empty). split; [now apply nth_error_nth'|].
    split; [rewrite numbers_nth by auto; lia|].
    unfold GetAudioTrackInfo, MIN_REDBOOK_TRACKS, size. cbn [tracks].
    replace (Z.of_nat (List.length ts) <? 2) with false by lia.
    replace (n <? 1) with false by lia.
    replace (n >? 99) with false by lia.
    replace (n >=? Z.of_nat (List.length ts)) with false by lia.
    reflexivity.
Qed.

Lemma two_file_SetDevice :
  SetDevice EmptyString (mkImageFile true two_file_cue (mkStream [] true) 0)
  = Some (true, two_file_table).
Proof. reflexivity. Defined.

Lemma SetDevice_success_inquiry_witness :
  GetAudioTracks example_header two_file_image = Some (1, 2, mkTMSF 0 6 50)
  /\ GetAudioTrackInfo example_header two_file_image 2
     = Some (mkTMSF 0 5 25, 0).
Proof.
  destruct (SetDevice_success_inquiry example_header EmptyString _ _ 0
              two_file_SetDevice) as [H1 H2].
  split; [exact H1|].
  destruct (H2 2 ltac:(cbn; lia) ltac:(lia)) as (track & Ht & _ & Hi).
  cbn in Ht. injection Ht as <-. exact Hi.
Defined.

(** ** Reading sectors *)

Lemma ReadSectors_loop_spec h this raw sector todo : forall i,
  (fst (ReadSectors_loop h this raw sector i todo) = true <->
   forall k, (k < todo)%nat ->
     fst (ReadSector h this raw (u64 (sector + (i + Z.of_nat k)))) = true)
  /\ (fst (ReadSectors_loop h this raw sector i todo) = true ->
      snd (ReadSectors_loop h this raw sector i todo)
      = map (fun k => snd (ReadSector h this raw
                                      (u64 (sector + (i + Z.of_nat k)))))
            (seq 0 todo)).
Proof.
  induction todo as [|todo IH]; intros i.
  - cbn. split; [split; [intros _ k Hk; lia | reflexivity] | reflexivity].
  - cbn [ReadSectors_loop].
    destruct (ReadSector h this raw (u64 (sector + i))) as [ok data] eqn:E.
    destruct ok.
    + destruct (IH (i + 1)) as [IH1 IH2].
      destruct (ReadSectors_loop h this raw sector (i + 1) todo) as [ok' rest].
      cbn [fst snd] in *. split; [split|].
      * intros H k Hk. destruct k as [|k].
        -- rewrite Z.add_0_r, E. reflexivity.
        -- replace (i + Z.of_nat (S k)) with (i + 1 + Z.of_nat k) by lia.
           apply IH1; [exact H | lia].
      * intros H. apply IH1. intros k Hk.
        replace (i + 1 + Z.of_nat k) with (i + Z.of_nat (S k)) by lia.
        apply H. lia.
      * intros H. cbn [seq map]. rewrite Z.add_0_r, E. cbn [snd]. f_equal.
        rewrite (IH2 H), <- seq_shift, map_map.
        apply map_ext. intros k. do 3 f_equal. lia.
    + cbn [fst snd]. split; [split|]; try discriminate.
      intros H. specialize (H 0%nat ltac:(lia)).
      rewrite Z.add_0_r, E in H. exact H.
Qed.

(** A run of the loop that fails has stopped at the first sector that
    cannot be read. *)
Lemma ReadSectors_loop_stops h this raw sector todo : forall i,
  fst (ReadSectors_loop h this raw sector i todo) = false ->
  exists k,
    (k < todo)%nat
    /\ (forall j, (j < k)%nat ->
          fst (ReadSector h this raw (u64 (sector + (i + Z.of_nat j)))) = true)
    /\ fst (ReadSector h this raw (u64 (sector + (i + Z.of_nat k)))) = false
    /\ snd (ReadSectors_loop h this raw sector i todo)
       = map (fun j => snd (ReadSector h this raw
                                       (u64 (sector + (i + Z.of_nat j)))))
             (seq 0 k).
Proof.
  induction todo as [|todo IH]; intros i; [discriminate|].
  cbn [ReadSectors_loop].
  destruct (ReadSector h this raw (u64 (sector + i))) as [ok data] eqn:E.
  destruct ok.
  - specialize (IH (i + 1)).
    destruct (ReadSectors_loop h this raw sector (i + 1) todo) as [ok' rest].
    cbn [fst snd] in *. intros H.
    destruct (IH H) as (k & Hk & Hbefore & Hat & Hdata).
    exists (S k). split; [lia|]. split; [|split].
    + intros j Hj. destruct j as [|j].
      * rewrite Z.add_0_r, E. reflexivity.
      * replace (i + Z.of_nat (S j)) with (i + 1 + Z.of_nat j) by lia.
        apply Hbefore. lia.
    + replace (i + Z.of_nat (S k)) with (i + 1 + Z.of_nat k) by lia. exact Hat.
    + cbn [seq map]. rewrite Z.add_0_r, E. cbn [snd]. f_equal.
      rewrite Hdata, <- seq_shift, map_map.
      apply map_ext. intros j. do 3 f_equal. lia.
  - intros _. exists 0%nat. split; [lia|]. split; [intros j Hj; lia|].
    rewrite Z.add_0_r, E. split; reflexivity.
Qed.

(** X8: [ReadSectors] succeeds exactly when every one of the [num]
    sectors from [sector] on can be read by [ReadSector], and then it
    delivers their data in order; a request for no sector succeeds.  A
    run that fails has stopped at the first sector that cannot be read:
    the sectors before it have been read, and it is their data, in
    order, that the run has got. *)
Theorem ReadSectors_all_or_nothing
    (h : Header) (this : Image) (raw : bool) (sector num : Z) :
  (fst (ReadSectors h this raw sector num) = true <->
   forall i, 0 <= i < num ->
     fst (ReadSector h this raw (u64 (sector + i))) = true)
  /\ (fst (ReadSectors h this raw sector num) = true ->
      snd (ReadSectors h this raw sector num)
      = map (fun k => snd (ReadSector h this raw (u64 (sector + Z.of_nat k))))
            (seq 0 (Z.to_nat num)))
  /\ (num <= 0 -> ReadSectors h this raw sector num = (true, []))
  /\ (fst (ReadSectors h this raw sector num) = false ->
      exists k,
        0 <= Z.of_nat k < num
        /\ (forall j, (j < k)%nat ->
              fst (ReadSector h this raw (u64 (sector + Z.of_nat j))) = true)
        /\ fst (ReadSector h this raw (u64 (sector + Z.of_nat k))) = false
        /\ snd (ReadSectors h this raw sector num)
           = map (fun j => snd (ReadSector h this raw
                                           (u64 (sector + Z.of_nat j))))
                 (seq 0 k)).
Proof.
  unfold ReadSectors.
  destruct (ReadSectors_loop_spec h this raw sector (Z.to_nat num) 0) as [H1 H2].
  split; [|split; [|split]].
  - rewrite H1. split.
    + intros H i Hi. specialize (H (Z.to_nat i) ltac:(lia)).
      rewrite Z.add_0_l, Z2Nat.id in H by lia. exact H.
    + intros H k Hk. rewrite Z.add_0_l. apply H. lia.
  - intros H. rewrite (H2 H). apply map_ext. intros k. now rewrite Z.add_0_l.
  - intros Hn. replace (Z.to_nat num) with 0%nat by lia. reflexivity.
  - intros H.
    destruct (ReadSectors_loop_stops h this raw sector (Z.to_nat num) 0 H)
      as (k & Hk & Hbefore & Hat & Hdata).
    exists k. split; [lia|]. split; [|split].
    + intros j Hj. specialize (Hbefore j Hj).
      now rewrite Z.add_0_l in Hbefore.
    + now rewrite Z.add_0_l in Hat.
    + rewrite Hdata. apply map_ext. intros j. now rewrite Z.add_0_l.
Qed.









(** ** The reported position *)

Lemma audio_position_unplayed h this p :
  unplayed p ->
  audio_position h this p
  = match tracks this with
    | [] => Some (0, 1, 0, 0)
    | first :: _ =>
        match find (fun it => Track.attr it =? 0) (tracks this) with
        | Some it => Some (Track.attr it, Track.number it, Track.start it, 0)
        | None => Some (Track.attr first, Track.number first, 0, 0)
        end
    end.
Proof.
  unfold audio_position. intros [H | H]; rewrite H.
  - destruct (tracks this); [reflexivity|].
    destruct (startSector p =? 0); reflexivity.
  - reflexivity.
Qed.

(** X10: [GetAudioSub] follows a session only if the player has a track
    file and a start sector other than 0.  Two players without such a
    session get the same answer, whatever their counters and flags; so
    while a session that began at sector 0 plays, the reported position
    stays where it is for a drive that never played: at the start of the
    first audio track, with a relative time of 0. *)
Theorem GetAudioSub_unplayed
    (h : Header) (this : Image) (p q : imagePlayer) :
  unplayed p -> unplayed q ->
  GetAudioSub h this p = GetAudioSub h this q
  /\ forall it,
       find (fun it => Track.attr it =? 0) (tracks this) = Some it ->
       GetAudioSub h this p
       = Some (mkSub (Track.attr it) (Track.number it) 1
                     (frames_to_msf h 0)
                     (frames_to_msf h (u32 (Track.start it + 150)))).
Proof.
  intros Hp Hq. unfold GetAudioSub.
  rewrite (audio_position_unplayed h this p Hp),
          (audio_position_unplayed h this q Hq).
  split; [reflexivity|].
  intros it Hf. rewrite Hf.
  destruct (tracks this); [discriminate | reflexivity].
Qed.

Lemma GetAudioSub_unplayed_witness :
  GetAudioSub example_header two_file_image from_zero_player
  = GetAudioSub example_header two_file_image idle_player
  /\ GetAudioSub example_header two_file_image from_zero_player
     = Some (mkSub 0 1 1 (mkTMSF 0 0 0) (mkTMSF 0 2 0)).
Proof.
  destruct (GetAudioSub_unplayed example_header two_file_image
              from_zero_player idle_player) as [H1 H2].
  - right. reflexivity.
  - left. reflexivity.
  - split; [exact H1|].
    exact (H2 (nth 0 two_file_table Track.empty) eq_refl).
Defined.

(** X11: on a table that has been built, whatever [GetAudioSub] reports
    is the attribute and the number of an entry of the table; the
    relative sector is never negative, and when it is not 0 the absolute
    sector is the start of that entry plus the relative sector. *)
Theorem audio_position_in_table
    (h : Header) (this : Image) (p : imagePlayer)
    (attr track_num absolute_sector relative_sector : Z) :
  built (tracks this) ->
  audio_position h this p
  = Some (attr, track_num, absolute_sector, relative_sector) ->
  exists track,
    In track (tracks this)
    /\ Track.attr track = attr
    /\ Track.number track = track_num
    /\ 0 <= relative_sector
    /\ (relative_sector = 0
        \/ absolute_sector = Track.start track + relative_sector).
Proof.
  intros Hb. apply built_complete in Hb.
  destruct Hb as ((_ & _ & Hr) & Hlen & _).
  unfold audio_position.
  destruct (tracks this) as [|first rest] eqn:Et; [cbn in Hlen; lia|].
  assert (Hfind : forall r,
    match find (fun it => Track.attr it =? 0) (first :: rest) with
    | Some it => Some (Track.attr it, Track.number it, Track.start it, 0)
    | None => Some (Track.attr first, Track.number first, 0, 0)
    end = Some r ->
    exists track, In track (first :: rest)
      /\ Track.attr track = fst (fst (fst r))
      /\ Track.number track = snd (fst (fst r))
      /\ snd r = 0).
  { intros r. destruct (find _ (first :: rest)) as [it|] eqn:Ef.
    - intros H. injection H as <-. exists it. cbn.
      apply find_some in Ef. tauto.
    - intros H. injection H as <-. exists first. cbn. auto. }
  destruct (if startSector p =? 0 then None else trackFile p) as [f|].
  2:{ intros H. apply Hfind in H. cbn in H.
      destruct H as (track & Hin & Ha & Hn & ->).
      exists track. repeat split; auto; lia. }
  destruct (getRate h (target f) =? 0); [discriminate|].
  match goal with
  | |- context [GetTrack h ?ts ?sec] =>
      set (sector := sec); destruct (deref ts (GetTrack h ts sector))
        as [track|] eqn:Ed
  end.
  - intros H. injection H as <- <- <- <-.
    assert (Hin : In track (first :: rest)).
    { destruct (GetTrack h (first :: rest) sector); [|discriminate].
      cbn in Ed. exact (nth_error_In _ _ Ed). }
    exists track. repeat split; auto.
    + destruct (sector >=? Track.start track); [apply u32_range | lia].
    + rewrite Forall_forall in Hr. destruct (Hr track Hin) as [Hs _].
      pose proof (u32_range (startSector p
        + u32 (u64 (playedTrackFrames p * REDBOOK_FRAMES_PER_SECOND
                    + getRate h (target f) - 1) / getRate h (target f)))) as Hsec.
      fold sector in Hsec.
      destruct (sector >=? Track.start track) eqn:Ege; [|now left].
      right. rewrite u32_small; lia.
  - intros H. injection H as <- <- <- <-.
    exists first. repeat split; cbn; auto; lia.
Qed.

Lemma audio_position_in_table_witness :
  exists track,
    In track (tracks two_file_image)
    /\ Track.attr track = 0
    /\ Track.number track = 2
    /\ 0 <= 10
    /\ (10 = 0 \/ 260 = Track.start track + 10).
Proof.
  apply (audio_position_in_table example_header two_file_image
           (mkPlayer (Some (mkPtr 1 (wav 235200))) (Some (mkChannel true 44100))
                     (Some 0) (Some AddSamples_s16) 250 100 5880 58800
                     true false)
           0 2 260 10 two_file_table_built).
  reflexivity.
Defined.

(** ** The callback of the mixer *)


Lemma CDAudioCallBack_passes h feed this p desired_track_frames :
  passes_guards feed p desired_track_frames ->
  has_output p ->
  CDAudioCallBack h feed this p desired_track_frames
  = let p := set_played p (u64 (playedTrackFrames p + feed_decoded feed)) in
    if playedTrackFrames p >=? totalTrackFrames p then Some (snd (StopAudio p))
    else if feed_decoded feed =? 0 then
      if negb (unlocks (feed_mutex feed)) then Some p
      else Some (snd (PlayAudioSector h (feed_play_mutex feed) this p
                  (u32 (startSector p + feed_played_redbook_frames feed))
                  (u32 (totalRedbookFrames p
                        - feed_played_redbook_frames feed))))
    else Some p.
Proof.
  intros (Hf & Hc & Hd & Hl) (Hch & Ha). unfold CDAudioCallBack, set_played.
  destruct p as [[f|] [c|] [u|] [a|] ss tr pl tt pg pa]; cbn in *;
    try congruence.
  replace (desired_track_frames =? 0) with false by lia.
  rewrite Hl. reflexivity.
Qed.

(** Past the guards a player without a channel or without the method has
    no result. *)
Lemma CDAudioCallBack_needs_output h feed this p desired_track_frames :
  passes_guards feed p desired_track_frames ->
  channel p = None \/ addFrames p = None ->
  CDAudioCallBack h feed this p desired_track_frames = None.
Proof.
  intros (Hf & Hc & Hd & Hl) Hn. unfold CDAudioCallBack.
  destruct p as [[f|] [c|] [u|] [a|] ss tr pl tt pg pa]; cbn in *;
    try congruence; try (destruct Hn; discriminate);
    replace (desired_track_frames =? 0) with false by lia;
    rewrite Hl; reflexivity.
Qed.



Lemma CDAudioCallBack_step h feed this p desired_track_frames :
  passes_guards feed p desired_track_frames ->
  has_output p ->
  0 < feed_decoded feed ->
  0 <= playedTrackFrames p ->
  playedTrackFrames p + feed_decoded feed < totalTrackFrames p ->
  totalTrackFrames p <= 2 ^ 64 ->
  CDAudioCallBack h feed this p desired_track_frames
  = Some (set_played p (playedTrackFrames p + feed_decoded feed)).
Proof.
  intros Hg Ho Hd Hp Hlt Ht.
  rewrite (CDAudioCallBack_passes _ _ _ _ _ Hg Ho). cbv zeta.
  rewrite u64_small by lia.
  cbn [set_played playedTrackFrames totalTrackFrames].
  replace (_ >=? totalTrackFrames p) with false by lia.
  replace (feed_decoded feed =? 0) with false by lia.
  reflexivity.
Qed.

(** X13: on a player that has its channel and its method for the frames,
    while the count of played frames stays below the total, a callback
    that gets past its guards and decodes some frames returns and changes
    nothing of the player but that count, whatever the flags of the
    player are and whatever the unlocking of the mutex answers; a second
    such callback on the player that the first one leaves gives the
    player that one callback decoding the sum gives. *)
Theorem CDAudioCallBack_accumulates
    (h : Header) (feed1 feed2 : Feed) (this : Image) (p : imagePlayer)
    (desired1 desired2 : Z) :
  passes_guards feed1 p desired1 ->
  passes_guards feed2 p desired2 ->
  has_output p ->
  0 < feed_decoded feed1 -> 0 < feed_decoded feed2 ->
  0 <= playedTrackFrames p ->
  playedTrackFrames p + feed_decoded feed1 + feed_decoded feed2
    < totalTrackFrames p <= 2 ^ 64 ->
  let p1 := set_played p (playedTrackFrames p + feed_decoded feed1) in
  CDAudioCallBack h feed1 this p desired1 = Some p1
  /\ CDAudioCallBack h feed2 this p1 desired2
     = Some (set_played p
               (playedTrackFrames p
                + (feed_decoded feed1 + feed_decoded feed2)))
  /\ forall feed desired,
       passes_guards feed p desired ->
       feed_decoded feed = feed_decoded feed1 + feed_decoded feed2 ->
       CDAudioCallBack h feed this p desired
       = CDAudioCallBack h feed2 this p1 desired2.
Proof.
  intros Hg1 Hg2 Ho Hd1 Hd2 Hp Ht p1.
  assert (E1 : CDAudioCallBack h feed1 this p desired1 = Some p1).
  { apply CDAudioCallBack_step; auto; lia. }
  assert (E2 : CDAudioCallBack h feed2 this p1 desired2
               = Some (set_played p
                         (playedTrackFrames p
                          + (feed_decoded feed1 + feed_decoded feed2)))).
  { rewrite (CDAudioCallBack_step h feed2).
    - unfold p1, set_played. cbn. do 2 f_equal. lia.
    - exact Hg2.
    - exact Ho.
    - exact Hd2.
    - cbn. lia.
    - cbn. lia.
    - cbn. lia. }
  split; [exact E1|]. split; [exact E2|].
  intros feed desired Hg Hd. rewrite E2.
  rewrite (CDAudioCallBack_step h feed) by (auto; lia).
  now rewrite Hd.
Qed.

Lemma CDAudioCallBack_accumulates_witness :
  CDAudioCallBack example_header (feed_of 1024 0) two_file_image
    busy_player 1024
  = Some (set_played busy_player 1024)
  /\ CDAudioCallBack example_header (feed_of 512 0) two_file_image
       (set_played busy_player 1024) 512
     = Some (set_played busy_player (0 + (1024 + 512))).
Proof.
  destruct (CDAudioCallBack_accumulates example_header (feed_of 1024 0)
              (feed_of 512 0) two_file_image busy_player 1024 512)
    as (H1 & H2 & _).
  - repeat split; cbn; congruence.
  - repeat split; cbn; congruence.
  - split; cbn; congruence.
  - reflexivity.
  - reflexivity.
  - cbn. lia.
  - cbn. lia.
  - split; [exact H1 | exact H2].
Defined.

(** ** The destructor *)

(** X14: the destructor of the image that the player points to takes the
    image from the player, so that every later callback returns at its
    guard and leaves the player as it is; the track file stays in the
    player.  While other images remain the flags and the channel are not
    touched: a player that was playing is still flagged as playing.
    With the last image the flags are cleared and the channel and the
    mutex are released. *)
Theorem destroy_detaches_player
    (h : Header) (s : Statics) (unit : Z) :
  cd (player s) = Some unit ->
  let s' := destroy s unit in
  cd (player s') = None
  /\ trackFile (player s') = trackFile (player s)
  /\ (forall feed this desired_track_frames,
        CDAudioCallBack h feed this (player s') desired_track_frames
        = Some (player s'))
  /\ (i32 (refCount s - 1) <> 0 ->
      isPlaying (player s') = isPlaying (player s)
      /\ isPaused (player s') = isPaused (player s)
      /\ channel (player s') = channel (player s)
      /\ mutex_exists s' = mutex_exists s)
  /\ (i32 (refCount s - 1) = 0 ->
      isPlaying (player s') = false
      /\ isPaused (player s') = false
      /\ channel (player s') = None
      /\ mutex_exists s' = false).
Proof.
  intros Hcd s'. subst s'. unfold destroy. rewrite Hcd, Z.eqb_refl.
  destruct (i32 (refCount s - 1) =? 0) eqn:E.
  - cbn. repeat split; try reflexivity; try lia.
    intros. unfold CDAudioCallBack. cbn.
    destruct (trackFile (player s)); reflexivity.
  - cbn. repeat split; try reflexivity; try lia.
    intros. unfold CDAudioCallBack. cbn.
    destruct (trackFile (player s)); reflexivity.
Qed.

Lemma destroy_detaches_player_witness :
  let s' := destroy (mkStatics 2 true busy_player) 0 in
  cd (player s') = None
  /\ isPlaying (player s') = true
  /\ CDAudioCallBack example_header (feed_of 1024 0) two_file_image
       (player s') 1024 = Some (player s').
Proof.
  destruct (destroy_detaches_player example_header
              (mkStatics 2 true busy_player) 0 eq_refl)
    as (H1 & _ & H3 & H4 & _).
  split; [exact H1|]. split.
  - apply H4. vm_compute. discriminate.
  - apply H3.
Defined.

(** ** The lines of the cue sheet *)

Lemma cue_line_well_formed st line st' :
  cue_line st line = Some (true, st') -> malformed line = false.
Proof.
  destruct line as [n ty | ix fr ok | obj | fr ok | s | | |]; cbn;
    try discriminate; try reflexivity.
  - destruct (add_pending st) as [[ok st1]|]; [|discriminate].
    destruct ty; cbn; try reflexivity; discriminate.
  - destruct (ix =? 1); [|destruct (ix =? 0)]; intros H; injection H as -> _;
      reflexivity.
  - destruct (add_pending st) as [[ok st1]|]; [|discriminate].
    destruct (open_error obj); [discriminate | reflexivity].
  - intros H; injection H as -> _. reflexivity.
Qed.

Lemma cue_lines_well_formed lines : forall st st' line,
  cue_lines st lines = Some (true, st') ->
  In line lines -> malformed line = false.
Proof.
  induction lines as [|l rest IH]; intros st st' line; cbn; [tauto|].
  destruct (cue_line st l) as [[[|] st1]|] eqn:E; try discriminate.
  intros H [<- | Hin].
  - exact (cue_line_well_formed _ _ _ E).
  - exact (IH _ _ _ H Hin).
Qed.

(** X15: a cue sheet that holds a malformed line, wherever it stands,
    never loads: if [LoadCueSheet] returns, it returns [false], and what
    [SetDevice] then answers is what [LoadIsoFile] finds in the file. *)
Theorem LoadCueSheet_malformed_line
    (mcn : string) (f : ImageFile) (line : CueLine) :
  In line (text_lines f) ->
  malformed line = true ->
  (forall ok st,
     LoadCueSheet mcn (text_opens f) (text_lines f) = Some (ok, st) ->
     ok = false)
  /\ (forall r,
        SetDevice mcn f = Some r ->
        r = LoadIsoFile (binary_addr f) (binary f)).
Proof.
  intros Hin Hm.
  assert (H : forall ok st,
            LoadCueSheet mcn (text_opens f) (text_lines f) = Some (ok, st) ->
            ok = false).
  { intros ok st. unfold LoadCueSheet.
    destruct (text_opens f); cbn [negb]; [|intros E; now injection E as <- _].
    destruct (cue_lines (cue_start mcn) (text_lines f)) as [[[|] st1]|] eqn:E;
      try discriminate.
    - rewrite (cue_lines_well_formed _ _ _ _ E Hin) in Hm. discriminate.
    - intros E'. now injection E' as <- _. }
  split; [exact H|].
  intros r. unfold SetDevice.
  destruct (LoadCueSheet mcn (text_opens f) (text_lines f)) as [[[|] st]|] eqn:E;
    try discriminate.
  - specialize (H _ _ eq_refl). discriminate.
  - intros E'. now injection E' as <-.
Qed.

Lemma LoadCueSheet_malformed_line_witness :
  (forall ok st,
     LoadCueSheet EmptyString (text_opens cue_and_iso) (text_lines cue_and_iso)
     = Some (ok, st) -> ok = false)
  /\ (forall r,
        SetDevice EmptyString cue_and_iso = Some r ->
        r = LoadIsoFile (binary_addr cue_and_iso) (binary cue_and_iso)).
Proof.
  apply (LoadCueSheet_malformed_line EmptyString cue_and_iso TooLong).
  - cbn. tauto.
  - reflexivity.
Defined.

(** ** The size of the table *)

Lemma add_pending_length st st' k :
  cue_inv st -> pending_inv st k ->
  add_pending st = Some (true, st') ->
  List.length (cue_tracks st') = k
  /\ Track.number (cue_track st')
     = match cue_tracks st' with
       | [] => 0
       | _ :: _ => Track.number (back (cue_tracks st'))
       end
  /\ c_canAddTrack st' = c_canAddTrack st.
Proof.
  intros [Ht Hl] Hk. unfold add_pending, pending_inv in *.
  destruct (c_canAddTrack st) eqn:Ec.
  - destruct (AddTrack (c_build st) (c_prestart st) (c_currPregap st))
      as [[[|] b]|] eqn:E; try discriminate.
    intros H. injection H as <-.
    destruct (AddTrack_inv _ _ _ _ Ht Hl E) as (_ & _ & H3 & H4).
    unfold cue_tracks, cue_track in *. cbn.
    split; [lia|]. split; [|exact Ec].
    destruct (b_tracks b); [discriminate H4|]. now rewrite H3.
  - intros H. injection H as <-. rewrite Ec. tauto.
Qed.

Lemma cue_line_counts st line st' k :
  cue_inv st -> pending_inv st k ->
  cue_line st line = Some (true, st') ->
  pending_inv st' (if is_TRACK line then S k else k).
Proof.
  intros Hi Hk.
  destruct line as [n ty | ix fr ok | obj | fr ok | s | | |]; cbn;
    try discriminate.
  - destruct (add_pending st) as [[ok st1]|] eqn:E; [|discriminate].
    destruct ty; cbn; try discriminate; intros H; injection H as -> <-;
      destruct (add_pending_length _ _ _ Hi Hk E) as (H1 & _);
      unfold pending_inv, cue_tracks in *; cbn; lia.
  - unfold pending_inv in *.
    destruct (ix =? 1); [|destruct (ix =? 0)]; intros H; injection H as -> <-;
      exact Hk.
  - destruct (add_pending st) as [[ok st1]|] eqn:E; [|discriminate].
    destruct (open_error obj); [discriminate|].
    intros H; injection H as -> <-.
    destruct (add_pending_length _ _ _ Hi Hk E) as (H1 & H2 & _).
    unfold pending_inv. cbn. split; assumption.
  - intros H; injection H as -> <-. exact Hk.
  - intros H; injection H as <-. exact Hk.
  - intros H; injection H as <-. exact Hk.
Qed.

Lemma cue_lines_counts lines : forall st st' k,
  cue_inv st -> pending_inv st k ->
  cue_lines st lines = Some (true, st') ->
  pending_inv st' (track_lines lines + k).
Proof.
  induction lines as [|line rest IH]; intros st st' k Hi Hk; cbn.
  - intros H; injection H as <-. exact Hk.
  - destruct (cue_line st line) as [[[|] st1]|] eqn:E; try discriminate.
    intros H.
    pose proof (IH _ _ _ (cue_line_inv _ _ _ Hi E)
                  (cue_line_counts _ _ _ _ Hi Hk E) H) as G.
    unfold track_lines in *. cbn [filter].
    destruct (is_TRACK line); cbn [List.length];
      [replace (S (List.length (filter is_TRACK rest)) + k)%nat
         with (List.length (filter is_TRACK rest) + S k)%nat by lia|];
      exact G.
Qed.

(** [AddTrack] does not accept a pending track that the loop has marked
    as not to be added. *)
Lemma AddTrack_needs_TRACK st k b :
  cue_inv st -> pending_inv st k -> c_canAddTrack st = false ->
  AddTrack (c_build st) (c_prestart st) (c_currPregap st) <> Some (true, b).
Proof.
  intros [Ht Hl] Hk Hc E. unfold pending_inv in Hk. rewrite Hc in Hk.
  destruct Hk as [_ Hn]. unfold cue_tracks, cue_track in *.
  destruct (b_tracks (c_build st)) as [|t0 l0] eqn:Et.
  - unfold AddTrack in E. rewrite Et in E.
    destruct ((c_prestart st >=? 0) && _); [discriminate|].
    rewrite Hn in E. discriminate.
  - assert (Hs : b_tracks (c_build st)
                 = removelast (t0 :: l0) ++ [back (t0 :: l0)]).
    { rewrite Et. apply tracks_split_last. discriminate. }
    destruct (AddTrack_subsequent _ _ _ _ _ _ _ Hs E)
      as [(_ & H & _) | (_ & prev' & curr' & sh & tp & Hc' & Hn1 & _ & _ & Hn2 & _)];
      [discriminate|].
    apply consistency_checks_true in Hc'. destruct Hc' as (_ & Hn3 & _).
    lia.
Qed.

(** X16: the table of a cue sheet that has loaded has one entry for each
    [TRACK] line and one for the lead-out; there is a [TRACK] line, and
    every [FILE] line has a [TRACK] line somewhere behind it. *)
Theorem LoadCueSheet_table_size
    (mcn : string) (lines : list CueLine) (st : CueState) :
  LoadCueSheet mcn true lines = Some (true, st) ->
  List.length (cue_tracks st) = S (track_lines lines)
  /\ (1 <= track_lines lines)%nat
  /\ forall pre obj post,
       lines = pre ++ FILE obj :: post -> existsb is_TRACK post = true.
Proof.
  unfold LoadCueSheet. cbn [negb].
  destruct (cue_lines (cue_start mcn) lines) as [[[|] st1]|] eqn:E;
    try discriminate.
  intros F.
  pose proof (cue_lines_inv _ _ _ (cue_start_inv mcn) E) as Hi.
  assert (Hk0 : pending_inv (cue_start mcn) 0).
  { unfold pending_inv. cbn. auto. }
  pose proof (cue_lines_counts _ _ _ _ (cue_start_inv mcn) Hk0 E) as Hk.
  rewrite Nat.add_0_r in Hk.
  assert (Hcan : forall st2 k,
            cue_inv st2 -> pending_inv st2 k ->
            cue_finish st2 = Some (true, st) ->
            c_canAddTrack st2 = true
            /\ List.length (cue_tracks st) = S (S (List.length (cue_tracks st2)))).
  { intros st2 k [Ht Hl] Hk2. unfold cue_finish.
    destruct (AddTrack (c_build st2) (c_prestart st2) (c_currPregap st2))
      as [[[|] b]|] eqn:E1; try discriminate.
    destruct (AddTrack_inv _ _ _ _ Ht Hl E1) as (H1 & H2 & _ & H4).
    match goal with
    | |- match AddTrack ?bb _ _ with _ => _ end = _ -> _ =>
        destruct (AddTrack bb (-1) 0) as [[ok b2]|] eqn:E2; [|discriminate]
    end.
    intros H. injection H as -> <-.
    apply AddTrack_inv in E2; cbn; auto.
    destruct E2 as (_ & _ & _ & G4). cbn in G4.
    split.
    - destruct (c_canAddTrack st2) eqn:Ec; [reflexivity|].
      exfalso. exact (AddTrack_needs_TRACK st2 k b (conj Ht Hl) Hk2 Ec E1).
    - unfold cue_tracks in *. cbn in G4 |- *. lia. }
  destruct (Hcan _ _ Hi Hk F) as [Hc Hlen].
  unfold pending_inv in Hk. rewrite Hc in Hk.
  split; [lia|]. split; [lia|].
  intros pre obj post ->.
  destruct (existsb is_TRACK post) eqn:Ex; [reflexivity|]. exfalso.
  clear Hk Hlen Hk0.
  revert E. generalize (cue_start mcn). intros st0 E.
  assert (Hsplit : exists st2,
            c_canAddTrack st2 = false /\ cue_lines st2 post = Some (true, st1)).
  { revert st0 E. induction pre as [|l pre IH]; intros st0; cbn.
    - destruct (add_pending st0) as [[ok st3]|]; [|discriminate].
      destruct (if open_error obj then false else ok); [|discriminate].
      intros E. eexists. split; [|exact E]. reflexivity.
    - destruct (cue_line st0 l) as [[[|] st3]|]; try discriminate.
      apply IH. }
  destruct Hsplit as (st2 & Hc2 & E2).
  assert (Hstay : forall post st2,
            existsb is_TRACK post = false ->
            c_canAddTrack st2 = false ->
            cue_lines st2 post = Some (true, st1) ->
            c_canAddTrack st1 = false).
  { clear. induction post as [|l post IH]; intros st2; cbn.
    - intros _ Hc H. injection H as <-. exact Hc.
    - intros Hx Hc. apply orb_false_iff in Hx. destruct Hx as [Hl Hx].
      destruct (cue_line st2 l) as [[[|] st3]|] eqn:E; try discriminate.
      apply (IH st3 Hx).
      destruct l as [n ty | ix fr ok | obj | fr ok | s | | |]; cbn in E;
        try discriminate.
      + destruct (ix =? 1); [|destruct (ix =? 0)]; injection E as _ <-;
          exact Hc.
      + destruct (add_pending st2) as [[ok st4]|]; [|discriminate].
        injection E as _ <-. reflexivity.
      + injection E as _ <-. exact Hc.
      + injection E as <-. exact Hc.
      + injection E as <-. exact Hc. }
  rewrite (Hstay _ _ Ex Hc2 E2) in Hc. discriminate.
Qed.

Lemma LoadCueSheet_table_size_witness :
  exists st,
    LoadCueSheet EmptyString true two_file_cue = Some (true, st)
    /\ List.length (cue_tracks st) = S (track_lines two_file_cue)
    /\ (1 <= track_lines two_file_cue)%nat.
Proof.
  assert (E : exists st,
            LoadCueSheet EmptyString true two_file_cue = Some (true, st)).
  { eexists. vm_compute. reflexivity. }
  destruct E as [st E]. exists st. split; [exact E|].
  destruct (LoadCueSheet_table_size EmptyString two_file_cue st E)
    as (H1 & H2 & _).
  split; assumption.
Defined.

(** ** The catalog *)







(** ** What the table keeps *)

Lemma set_length_same t : Track.set_length t (Track.length t) = t.
Proof. destruct t; reflexivity. Qed.

Lemma set_length_twice t a b :
  Track.set_length (Track.set_length t a) b = Track.set_length t b.
Proof. reflexivity. Qed.

Lemma kept_refl ts : kept ts ts.
Proof.
  intros i t H. exists (Track.length t). now rewrite set_length_same.
Qed.

Lemma kept_length ts ts' : kept ts ts' -> (List.length ts <= List.length ts')%nat.
Proof.
  intros H. destruct ts as [|t0 l0]; [cbn; lia|].
  assert (Hn : (List.length l0 < List.length (t0 :: l0))%nat) by (cbn; lia).
  destruct (nth_error (t0 :: l0) (List.length l0)) as [t|] eqn:E.
  - destruct (H _ _ E) as (len & H1 & _).
    assert (Hs : nth_error ts' (List.length l0) <> None) by congruence.
    apply nth_error_Some in Hs. cbn. lia.
  - apply nth_error_None in E. lia.
Qed.

Lemma kept_trans ts1 ts2 ts3 : kept ts1 ts2 -> kept ts2 ts3 -> kept ts1 ts3.
Proof.
  intros H12 H23 i t H.
  destruct (H12 _ _ H) as (l1 & E1 & K1).
  destruct (H23 _ _ E1) as (l2 & E2 & K2).
  exists l2. rewrite set_length_twice in E2. split; [exact E2|].
  intros Hi. pose proof (kept_length _ _ H12) as Hlen.
  rewrite K2 by lia. cbn. apply K1, Hi.
Qed.

Lemma kept_snoc others prev len rest :
  kept (others ++ [prev]) (others ++ Track.set_length prev len :: rest).
Proof.
  intros i t H.
  destruct (Nat.lt_ge_cases i (List.length others)) as [Hlt | Hge].
  - rewrite nth_error_app1 in H by exact Hlt.
    exists (Track.length t). rewrite set_length_same.
    rewrite nth_error_app1 by exact Hlt. auto.
  - assert (Hi : i = List.length others).
    { assert (Hs : nth_error (others ++ [prev]) i <> None) by congruence.
      apply nth_error_Some in Hs. rewrite length_app in Hs. cbn in Hs. lia. }
    subst i. rewrite nth_error_app2, Nat.sub_diag in H by lia.
    cbn in H. injection H as <-.
    exists len. rewrite nth_error_app2, Nat.sub_diag by lia.
    split; [reflexivity|]. rewrite length_app. cbn. lia.
Qed.

Lemma consistency_checks_shape others prev curr shift totalPregap :
  exists rest,
    b_tracks (snd (consistency_checks others prev curr shift totalPregap))
    = others ++ prev :: rest.
Proof.
  unfold consistency_checks.
  destruct (_ || _); cbn; eexists; reflexivity.
Qed.

Lemma AddTrack_kept b prestart currPregap ok b' :
  AddTrack b prestart currPregap = Some (ok, b') ->
  kept (b_tracks b) (b_tracks b').
Proof.
  destruct (b_tracks b) as [|t0 l0] eqn:Et.
  { intros _ i t H. destruct i; discriminate. }
  assert (Hs : b_tracks b = removelast (t0 :: l0) ++ [back (t0 :: l0)]).
  { rewrite Et. apply tracks_split_last. discriminate. }
  rewrite <- Et. set (others := removelast (t0 :: l0)) in *.
  set (prev := back (t0 :: l0)) in *. clearbody others prev. clear Et.
  unfold AddTrack. rewrite Hs, match_snoc, back_snoc, removelast_last.
  destruct ((prestart >=? 0) && _).
  { intros E. injection E as _ <-. rewrite Hs. apply kept_refl. }
  destruct (same_file (Track.file prev) (Track.file (b_curr b))).
  - intros E. injection E as E.
    match type of E with
    | consistency_checks _ ?p ?c ?s ?tp = _ =>
        destruct (consistency_checks_shape others p c s tp) as [rest Hr];
        rewrite E in Hr; cbn [snd] in Hr; rewrite Hr
    end.
    destruct (Track.length prev =? 0).
    + apply kept_snoc.
    + rewrite <- (set_length_same prev) at 2. apply kept_snoc.
  - destruct (Track.file prev) as [pf|]; [|discriminate].
    destruct (Track.sectorSize prev =? 0); [discriminate|].
    intros E. injection E as E.
    match type of E with
    | consistency_checks _ ?p ?c ?s ?tp = _ =>
        destruct (consistency_checks_shape others p c s tp) as [rest Hr];
        rewrite E in Hr; cbn [snd] in Hr; rewrite Hr
    end.
    cbn [Track.sectorSize Track.set_length Track.length].
    destruct (negb _).
    + apply (kept_snoc others prev).
    + apply (kept_snoc others prev).
Qed.

Lemma add_pending_kept st ok st' :
  add_pending st = Some (ok, st') -> kept (cue_tracks st) (cue_tracks st').
Proof.
  unfold add_pending. destruct (c_canAddTrack st).
  - destruct (AddTrack _ _ _) as [[s b]|] eqn:E; [|discriminate].
    intros H. injection H as _ <-. exact (AddTrack_kept _ _ _ _ _ E).
  - intros H. injection H as _ <-. apply kept_refl.
Qed.

Lemma cue_line_kept st line ok st' :
  cue_line st line = Some (ok, st') -> kept (cue_tracks st) (cue_tracks st').
Proof.
  destruct line as [n ty | ix fr s | obj | fr s | str | | |]; cbn.
  - destruct (add_pending st) as [[s st1]|] eqn:E; [|discriminate].
    apply add_pending_kept in E.
    destruct (apply_type _ _); intros H; injection H as _ <-; exact E.
  - destruct (ix =? 1); [|destruct (ix =? 0)]; intros H; injection H as _ <-;
      apply kept_refl.
  - destruct (add_pending st) as [[s st1]|] eqn:E; [|discriminate].
    apply add_pending_kept in E.
    intros H; injection H as _ <-; exact E.
  - intros H; injection H as _ <-; apply kept_refl.
  - intros H; injection H as _ <-; apply kept_refl.
  - intros H; injection H as _ <-; apply kept_refl.
  - intros H; injection H as _ <-; apply kept_refl.
  - intros H; injection H as _ <-; apply kept_refl.
Qed.

Lemma cue_lines_kept lines : forall st ok st',
  cue_lines st lines = Some (ok, st') -> kept (cue_tracks st) (cue_tracks st').
Proof.
  induction lines as [|line rest IH]; intros st ok st'; cbn.
  - intros H. injection H as _ <-. apply kept_refl.
  - destruct (cue_line st line) as [[[|] st1]|] eqn:E; try discriminate.
    + intros H. exact (kept_trans _ _ _ (cue_line_kept _ _ _ _ E) (IH _ _ _ H)).
    + intros H. injection H as _ <-. exact (cue_line_kept _ _ _ _ E).
Qed.

Lemma cue_finish_kept st ok st' :
  cue_finish st = Some (ok, st') -> kept (cue_tracks st) (cue_tracks st').
Proof.
  unfold cue_finish.
  destruct (AddTrack _ _ _) as [[[|] b]|] eqn:E1; try discriminate.
  - match goal with
    | |- match AddTrack ?bb ?x ?y with _ => _ end = _ -> _ =>
        destruct (AddTrack bb x y) as [[s b2]|] eqn:E2; [|discriminate]
    end.
    intros H. injection H as _ <-.
    apply AddTrack_kept in E1, E2.
    exact (kept_trans _ _ _ E1 E2).
  - intros H. injection H as _ <-. exact (AddTrack_kept _ _ _ _ _ E1).
Qed.

(** X18: what [AddTrack] has put into the table stays as it is to the
    end of [LoadCueSheet], whether the call returns [true] or [false]:
    an entry of the table after some of the lines is at the same place
    in the table after the call, and of its fields only the length can
    differ, and that only if the entry was the last one then. *)
Theorem LoadCueSheet_keeps_entries
    (mcn : string) (pre post : list CueLine) (st1 st : CueState) (ok : bool) :
  cue_lines (cue_start mcn) pre = Some (true, st1) ->
  LoadCueSheet mcn true (pre ++ post) = Some (ok, st) ->
  kept (cue_tracks st1) (cue_tracks st).
Proof.
  intros Hpre. unfold LoadCueSheet. cbn [negb].
  rewrite (cue_lines_app _ _ _ _ Hpre).
  destruct (cue_lines st1 post) as [[[|] st2]|] eqn:E; try discriminate.
  - intros F. exact (kept_trans _ _ _ (cue_lines_kept _ _ _ _ E)
                       (cue_finish_kept _ _ _ F)).
  - intros F. injection F as _ <-. exact (cue_lines_kept _ _ _ _ E).
Qed.

Lemma LoadCueSheet_keeps_entries_witness :
  exists st1 st,
    cue_lines (cue_start EmptyString) (firstn 4 two_file_cue) = Some (true, st1)
    /\ LoadCueSheet EmptyString true two_file_cue = Some (true, st)
    /\ kept (cue_tracks st1) (cue_tracks st).
Proof.
  assert (E1 : exists st1,
            cue_lines (cue_start EmptyString) (firstn 4 two_file_cue)
            = Some (true, st1)).
  { eexists. vm_compute. reflexivity. }
  assert (E2 : exists st,
            LoadCueSheet EmptyString true
              (firstn 4 two_file_cue ++ skipn 4 two_file_cue)
            = Some (true, st)).
  { eexists. vm_compute. reflexivity. }
  destruct E1 as [st1 E1]. destruct E2 as [st E2].
  exists st1, st. split; [exact E1|]. split; [exact E2|].
  exact (LoadCueSheet_keeps_entries EmptyString (firstn 4 two_file_cue)
           (skipn 4 two_file_cue) st1 st true E1 E2).
Defined.

(** ** Tracks in one file *)

Lemma u32_sub_u32_l a b : u32 (u32 a - b) = u32 (a - b).
Proof. unfold u32. apply Zminus_mod_idemp_l. Qed.

Lemma u32_sub_u32_r a b : u32 (a - u32 b) = u32 (a - b).
Proof. unfold u32. apply Zminus_mod_idemp_r. Qed.

Lemma consistency_checks_places others prev curr shift totalPregap :
  let r := snd (consistency_checks others prev curr shift totalPregap) in
  nth (List.length others) (b_tracks r) Track.empty = prev
  /\ b_curr r = curr /\ b_shift r = shift /\ b_totalPregap r = totalPregap.
Proof.
  unfold consistency_checks. destruct (_ || _); cbn;
    rewrite app_nth2, Nat.sub_diag by lia; auto.
Qed.

(** X19: when the track to add lies in the file of the last entry, whose
    length is still open, and the index 0 does not lie behind the index
    1, [AddTrack] returns, and whether or not its checks pass the
    placement is this.  The last entry changes in its length only.  On
    the disc the current track starts behind the end of that entry by
    the sectors between its index 0 and its index 1 plus its [PREGAP];
    in the file its data begin behind the data of that entry by the
    sectors between the two indices alone: a [PREGAP] takes no bytes of
    the file.  Both hold modulo 2^32.  The shift stays and the total of
    the pregaps grows by the [PREGAP]. *)
Theorem AddTrack_same_file
    (b : Builder) (prestart currPregap : Z)
    (others : list Track.t) (prev : Track.t) :
  b_tracks b = others ++ [prev] ->
  same_file (Track.file prev) (Track.file (b_curr b)) = true ->
  Track.length prev = 0 ->
  ~ prestart_after_start b prestart ->
  exists ok b',
    AddTrack b prestart currPregap = Some (ok, b')
    /\ previous b b' = Track.set_length prev (Track.length (previous b b'))
    /\ u32 (Track.start (b_curr b') - upper_bound (previous b b'))
       = u32 (index_gap b prestart + currPregap)
    /\ u32 (Track.skip (b_curr b')
            - (Track.skip prev
               + Track.length (previous b b') * Track.sectorSize prev))
       = u32 (Track.skip (b_curr b)
              + index_gap b prestart * Track.sectorSize (b_curr b))
    /\ b_shift b' = b_shift b
    /\ b_totalPregap b' = i32 (b_totalPregap b + currPregap).
Proof.
  intros Ht Hsame Hlen Hpre.
  assert (Hg : (prestart >=? 0) && (prestart >? i32 (Track.start (b_curr b)))
               = false).
  { unfold prestart_after_start in Hpre.
    destruct (prestart >=? 0) eqn:E1; [|reflexivity].
    destruct (prestart >? i32 (Track.start (b_curr b))) eqn:E2; [|reflexivity].
    exfalso. apply Hpre. lia. }
  unfold AddTrack, previous.
  rewrite Ht, match_snoc, back_snoc, removelast_last, Hg, Hsame, Hlen.
  cbn [Z.eqb]. fold (index_gap b prestart).
  set (g := index_gap b prestart).
  match goal with
  | |- exists ok b', Some (consistency_checks others ?p ?c ?s ?tp) = _ /\ _ =>
      destruct (consistency_checks_places others p c s tp)
        as (Hp & Hc & Hs & Htp);
      destruct (consistency_checks others p c s tp) as [ok b'] eqn:E
  end.
  cbn [snd] in Hp, Hc, Hs, Htp.
  exists ok, b'. split; [reflexivity|].
  replace (List.length (others ++ [prev]) - 1)%nat with (List.length others)
    by (rewrite length_app; cbn; lia).
  rewrite Hp, Hc, Hs, Htp. unfold upper_bound.
  cbn [Track.set_length Track.set_start Track.set_skip Track.start
       Track.length Track.skip Track.sectorSize].
  split; [reflexivity|].
  set (sc := u32 (Track.start (b_curr b) + b_shift b)).
  split.
  { rewrite u32_sub_u32_r, u32_sub_u32_l.
    replace (sc + i32 (b_totalPregap b + currPregap)
             - (Track.start prev
                + u32 (sc + b_totalPregap b - Track.start prev - g)))
      with (sc - Track.start prev
            - u32 (sc + b_totalPregap b - Track.start prev - g)
            + i32 (b_totalPregap b + currPregap)) by lia.
    rewrite u32_add_i32_r.
    replace (sc - Track.start prev
             - u32 (sc + b_totalPregap b - Track.start prev - g)
             + (b_totalPregap b + currPregap))
      with (sc - Track.start prev + b_totalPregap b + currPregap
            - u32 (sc + b_totalPregap b - Track.start prev - g)) by lia.
    rewrite u32_sub_u32_r. f_equal. lia. }
  split; [|split; reflexivity].
  rewrite u32_sub_u32_l. f_equal. ring.
Qed.

Lemma AddTrack_same_file_witness :
  exists ok b',
    AddTrack third_track_builder (-1) 150 = Some (ok, b')
    /\ Track.length (previous third_track_builder b') = 100
    /\ Track.start (b_curr b') = 425
    /\ Track.skip (b_curr b') = 646800.
Proof.
  destruct (AddTrack_same_file third_track_builder (-1) 150
              [ Track.mk (Some (mkPtr 0 (wav 705600))) 0 100 0 2352 1 0 false ]
              (Track.mk (Some (mkPtr 0 (wav 705600))) 175 0 411600 2352 2 0 false))
    as (ok & b' & E & _).
  - reflexivity.
  - reflexivity.
  - reflexivity.
  - unfold prestart_after_start. lia.
  - exists ok, b'. split; [exact E|].
    vm_compute in E. injection E as _ <-. vm_compute. auto.
Defined.

(** ** The status and the position *)

(** X20: [GetAudioSub] reads nothing of the player but its session: two
    players with the same session get the same answer.  So after
    [StopAudio], when [GetAudioStatus] reports neither playing nor
    paused, and after [PauseAudio], [GetAudioSub] still reports the
    position that the session had reached. *)
Theorem GetAudioSub_ignores_flags
    (h : Header) (this : Image) (p : imagePlayer) :
  (forall q, session q = session p ->
             GetAudioSub h this q = GetAudioSub h this p)
  /\ GetAudioSub h this (snd (StopAudio p)) = GetAudioSub h this p
  /\ GetAudioStatus (snd (StopAudio p)) = (true, false, false)
  /\ forall resume,
       GetAudioSub h this (snd (PauseAudio p resume)) = GetAudioSub h this p
       /\ GetAudioStatus (snd (PauseAudio p resume))
          = (true, isPlaying p, negb resume).
Proof.
  assert (H : forall q, session q = session p ->
                        GetAudioSub h this q = GetAudioSub h this p).
  { intros q Hs. unfold session in Hs.
    injection Hs as Hf _ _ Hst _ Hpl _.
    unfold GetAudioSub, audio_position. now rewrite Hf, Hst, Hpl. }
  split; [exact H|]. split; [apply H; reflexivity|].
  split; [reflexivity|].
  intros resume. split; [apply H|]; reflexivity.
Qed.

(** ** The entries and the [TRACK] lines *)

Lemma map_removelast_snoc {A B} (f : A -> B) (l : list A) s x :
  map f l = s ++ [x] -> map f (removelast l) = s.
Proof.
  intros H. destruct l as [|a l] using rev_ind.
  - destruct s; discriminate.
  - rewrite removelast_last. rewrite map_app in H. cbn in H.
    now apply app_inj_tail in H.
Qed.

Lemma AddTrack_described b prestart currPregap b' :
  AddTrack b prestart currPregap = Some (true, b') ->
  map described (b_tracks b')
  = map described (b_tracks b) ++ [described (b_curr b)].
Proof.
  destruct (b_tracks b) as [|t0 l0] eqn:Et.
  { unfold AddTrack. rewrite Et.
    destruct ((prestart >=? 0) && _); [discriminate|].
    destruct (Track.number (b_curr b) =? 1); [|discriminate].
    intros E. injection E as <-. reflexivity. }
  assert (Hs : b_tracks b = removelast (t0 :: l0) ++ [back (t0 :: l0)]).
  { rewrite Et. apply tracks_split_last. discriminate. }
  rewrite <- Et. set (others := removelast (t0 :: l0)) in *.
  set (prev := back (t0 :: l0)) in *. clearbody others prev. clear Et.
  unfold AddTrack. rewrite Hs, match_snoc, back_snoc, removelast_last.
  destruct ((prestart >=? 0) && _); [discriminate|].
  destruct (same_file (Track.file prev) (Track.file (b_curr b))).
  - intros E. injection E as E.
    apply consistency_checks_true in E. destruct E as (-> & _ & _).
    cbn [b_tracks]. rewrite !map_app, <- app_assoc. cbn [map app].
    destruct (Track.length prev =? 0); reflexivity.
  - destruct (Track.file prev) as [pf|]; [|discriminate].
    destruct (Track.sectorSize prev =? 0); [discriminate|].
    intros E. injection E as E.
    apply consistency_checks_true in E. destruct E as (-> & _ & _).
    cbn [b_tracks]. rewrite !map_app, <- app_assoc. cbn [map app].
    cbn [Track.sectorSize Track.set_length Track.length].
    destruct (negb _); reflexivity.
Qed.

Lemma add_pending_described st st' seen :
  described_inv st seen ->
  add_pending st = Some (true, st') ->
  map (fun t => Some (described t)) (cue_tracks st') = seen.
Proof.
  unfold described_inv, add_pending. intros <-.
  destruct (c_canAddTrack st).
  - destruct (AddTrack _ _ _) as [[[|] b]|] eqn:E; try discriminate.
    intros H. injection H as <-.
    apply AddTrack_described in E. unfold cue_tracks, cue_track. cbn.
    rewrite <- !(map_map described Some), E, map_app. reflexivity.
  - intros H. injection H as <-. now rewrite app_nil_r.
Qed.

Lemma cue_line_described st line st' seen :
  described_inv st seen ->
  cue_line st line = Some (true, st') ->
  described_inv st' (seen ++ map declared (filter is_TRACK [line])).
Proof.
  intros Hd.
  destruct line as [n ty | ix fr ok | obj | fr ok | s | | |]; cbn;
    try discriminate; rewrite ?app_nil_r.
  - destruct (add_pending st) as [[ok st1]|] eqn:E; [|discriminate].
    destruct ty; cbn; try discriminate; intros H; injection H as -> <-;
      apply (add_pending_described _ _ _ Hd) in E;
      unfold described_inv, cue_tracks in *; cbn; now rewrite E.
  - destruct (ix =? 1); [|destruct (ix =? 0)]; intros H; injection H as -> <-;
      exact Hd.
  - destruct (add_pending st) as [[ok st1]|] eqn:E; [|discriminate].
    destruct (open_error obj); [discriminate|].
    intros H; injection H as -> <-.
    apply (add_pending_described _ _ _ Hd) in E.
    unfold described_inv, cue_tracks in *. cbn. now rewrite app_nil_r.
  - intros H; injection H as -> <-. exact Hd.
  - intros H; injection H as <-. exact Hd.
  - intros H; injection H as <-. exact Hd.
Qed.

Lemma cue_lines_described lines : forall st st' seen,
  described_inv st seen ->
  cue_lines st lines = Some (true, st') ->
  described_inv st' (seen ++ map declared (filter is_TRACK lines)).
Proof.
  induction lines as [|line rest IH]; intros st st' seen Hd; cbn [cue_lines].
  - intros H; injection H as <-. cbn. now rewrite app_nil_r.
  - destruct (cue_line st line) as [[[|] st1]|] eqn:E; try discriminate.
    intros H.
    pose proof (IH _ _ _ (cue_line_described _ _ _ _ Hd E) H) as G.
    change (line :: rest) with ([line] ++ rest).
    rewrite filter_app, map_app, app_assoc. exact G.
Qed.

Lemma existsb_described ts :
  existsb (fun track => Track.attr track =? 0x40) ts
  = existsb data_of (map (fun t => Some (described t)) ts).
Proof.
  induction ts as [|t ts IH]; [reflexivity|]. cbn [map existsb].
  now rewrite IH.
Qed.

Lemma existsb_declared lines :
  existsb declares_data lines
  = existsb data_of (map declared (filter is_TRACK lines)).
Proof.
  induction lines as [|line lines IH]; [reflexivity|].
  cbn [existsb filter]. rewrite IH. unfold declares_data.
  destruct line; reflexivity.
Qed.

(** X21: the entries of the table of a cue sheet that has loaded, the
    lead-out apart, are in their order what the [TRACK] lines declare:
    the number, the size of the sectors, the attribute and the flag of
    mode 2.  So the [TRACK] line at place [i], counted from 0, bears a
    number that is [i + 1] modulo 256, and [HasDataTrack] answers
    whether some [TRACK] line declares a data track. *)
Theorem LoadCueSheet_entries_as_declared
    (mcn : string) (lines : list CueLine) (st : CueState) (unit : Z) :
  LoadCueSheet mcn true lines = Some (true, st) ->
  map (fun t => Some (described t)) (removelast (cue_tracks st))
  = map declared (filter is_TRACK lines)
  /\ (forall i track_number type,
        nth_error (filter is_TRACK lines) i = Some (TRACK track_number type) ->
        u8 track_number = Z.of_nat (S i))
  /\ HasDataTrack (mkImage (cue_tracks st) (c_mcn st) unit)
     = existsb declares_data lines.
Proof.
  intros L. pose proof (LoadCueSheet_complete _ _ _ _ L) as Hcomplete.
  revert L. unfold LoadCueSheet. cbn [negb].
  destruct (cue_lines (cue_start mcn) lines) as [[[|] st1]|] eqn:E;
    try discriminate.
  intros F.
  pose proof (cue_lines_inv _ _ _ (cue_start_inv mcn) E) as Hi.
  assert (Hk0 : pending_inv (cue_start mcn) 0).
  { unfold pending_inv. cbn. auto. }
  pose proof (cue_lines_counts _ _ _ _ (cue_start_inv mcn) Hk0 E) as Hk.
  assert (Hd0 : described_inv (cue_start mcn) []) by reflexivity.
  pose proof (cue_lines_described _ _ _ _ Hd0 E) as Hd. cbn [app] in Hd.
  set (seen := map declared (filter is_TRACK lines)) in *.
  assert (Hall : exists d,
            map (fun t => Some (described t)) (cue_tracks st)
            = seen ++ [Some d]
            /\ data_of (Some d) = false).
  { revert F. unfold cue_finish. destruct Hi as [Ht Hl].
    destruct (AddTrack (c_build st1) (c_prestart st1) (c_currPregap st1))
      as [[[|] b]|] eqn:E1; try discriminate.
    match goal with
    | |- match AddTrack ?bb _ _ with _ => _ end = _ -> _ =>
        destruct (AddTrack bb (-1) 0) as [[ok b2]|] eqn:E2; [|discriminate]
    end.
    intros H. injection H as -> <-.
    assert (Hc : c_canAddTrack st1 = true).
    { destruct (c_canAddTrack st1) eqn:Ec; [reflexivity|].
      exfalso. exact (AddTrack_needs_TRACK st1 _ b (conj Ht Hl) Hk Ec E1). }
    unfold described_inv in Hd. rewrite Hc in Hd.
    pose proof (AddTrack_described _ _ _ _ E1) as D1.
    pose proof (AddTrack_described _ _ _ _ E2) as D2.
    change (map described (b_tracks b2)
            = map described (b_tracks b) ++ [described (lead_out (b_curr b))])
      in D2.
    exists (described (lead_out (b_curr b))).
    split; [|reflexivity].
    change (cue_tracks (with_build
              (with_track (with_build st1 b)
                 (lead_out (cue_track (with_build st1 b)))) b2))
      with (b_tracks b2).
    rewrite <- (map_map described Some), D2, D1, !map_app.
    rewrite <- (map_map described Some) in Hd.
    unfold cue_tracks, cue_track in Hd. cbn [map]. now rewrite Hd. }
  destruct Hall as (d & Hall & Hdata).
  assert (Hrem : map (fun t => Some (described t)) (removelast (cue_tracks st))
                 = seen).
  { exact (map_removelast_snoc _ _ _ _ Hall). }
  split; [exact Hrem|]. split.
  - intros i n ty Hnth.
    destruct Hcomplete as ((Hn & _ & _) & Hlen & _).
    assert (Hne : cue_tracks st <> []).
    { destruct (cue_tracks st); [cbn in Hlen; lia | discriminate]. }
    pose proof (tracks_split_last _ Hne) as Hs.
    assert (Hli : (i < List.length (removelast (cue_tracks st)))%nat).
    { rewrite <- (length_map (fun t => Some (described t))), Hrem.
      unfold seen. rewrite length_map. apply nth_error_Some. congruence. }
    assert (Hnum : Track.number (nth i (cue_tracks st) Track.empty)
                   = Z.of_nat (S i)).
    { apply numbers_nth; [exact Hn|].
      rewrite Hs, length_app. cbn. lia. }
    rewrite Hs, app_nth1 in Hnum by exact Hli.
    pose proof (f_equal (fun l => nth_error l i) Hrem) as Hi'.
    cbn beta in Hi'. unfold seen in Hi'.
    rewrite !nth_error_map, Hnth in Hi'.
    rewrite (nth_error_nth' _ Track.empty Hli) in Hi'. cbn in Hi'.
    destruct ty; cbn in Hi'; try discriminate;
      injection Hi' as Hx _ _ _; now rewrite <- Hx.
  - unfold HasDataTrack. cbn [tracks].
    rewrite existsb_described, Hall, existsb_app, existsb_declared.
    fold seen. cbn [existsb]. now rewrite Hdata, !orb_false_r.
Qed.

Lemma LoadCueSheet_entries_as_declared_witness :
  exists st,
    LoadCueSheet EmptyString true mixed_cue = Some (true, st)
    /\ map (fun t => Some (described t)) (removelast (cue_tracks st))
       = [Some (1, 2048, 0x40, false); Some (2, 2352, 0, false)]
    /\ HasDataTrack (mkImage (cue_tracks st) (c_mcn st) 0) = true.
Proof.
  assert (E : exists st,
            LoadCueSheet EmptyString true mixed_cue = Some (true, st)).
  { eexists. vm_compute. reflexivity. }
  destruct E as [st E]. exists st. split; [exact E|].
  destruct (LoadCueSheet_entries_as_declared EmptyString mixed_cue st 0 E)
    as (H1 & _ & H3).
  split; [exact H1 | exact H3].
Defined.
